(** * SplitMint: exact split engine, balance aggregator and debt simplifier

    Shallow embedding of
      - [backend/app/services/split_engine.py]
      - [backend/app/services/debt_simplifier.py]
    and of the replay loop of [backend/app/tests/test_balance_engine.py].

    Representation of Python's [Decimal]:
      - a monetary value carries two fractional digits (the schemas ask for
        [decimal_places=2], the tables for [Numeric(12, 2)]); it is
        represented by its integer number of cents, a [Z].  [Decimal('0.01')]
        is [1], [Decimal('0')] is [0];
      - a percentage is an arbitrary finite decimal; it is represented by
        the rational number it denotes, a [Q];
      - [+], [-], [*], comparisons, [abs] and [min] are exact on [Decimal];
        a quotient is only ever consumed by
        [.quantize(Decimal('0.01'), rounding=ROUND_HALF_EVEN)], which is
        embedded as rounding the exact quotient, expressed in cents, to the
        nearest integer with ties going to the even one.  This agrees with
        the 28-digit decimal context as long as values fit in it. *)

From Stdlib Require Import ZArith QArith Qabs Lia Lqa.
From stdpp Require Import base list strings.

Local Open Scope Z_scope.

(** ** Python values and builtins *)

Module Py.

(** The exceptions of the embedded code.  Every [raise] of the split
    engine is a [ValueError]; the constructors keep the raise sites apart
    under the names of the error taxonomy.  [IndexError], [KeyError] and
    [EmptySequence] are what list indexing, dict indexing and [max] of an
    empty list raise. *)
Inductive error : Type :=
| InvalidInput (msg : string)
| MissingParameters (msg : string)
| SplitMismatch (total difference : Z)
| PercentageMismatch (total : Q)
| NegativeAmount (msg : string)
| IndexError
| KeyError (key : string)
| EmptySequence.

Inductive result (A : Type) : Type :=
| Ok (a : A)
| Err (e : error).
Arguments Ok {A} a.
Arguments Err {A} e.

Definition bind {A B : Type} (r : result A) (k : A -> result B) : result B :=
  match r with
  | Ok a => k a
  | Err e => Err e
  end.

(** [sum(l)]: left fold starting from [0]. *)
Definition sum (l : list Z) : Z := fold_left Z.add l 0.

Definition sumQ (l : list Q) : Q := fold_left Qplus l (0 # 1).

(** [max(l)] on a list of amounts; Python raises on the empty list. *)
Fixpoint max (l : list Z) : option Z :=
  match l with
  | [] => None
  | x :: l' =>
      match max l' with
      | None => Some x
      | Some m => Some (Z.max x m)
      end
  end.

(** [l.index(x)]: position of the first element equal to [x]. *)
Fixpoint index (x : Z) (l : list Z) : option nat :=
  match l with
  | [] => None
  | y :: l' => if y =? x then Some O else option_map S (index x l')
  end.

(** [l[i] += d]; [IndexError] when [i] is out of range. *)
Definition add_at (l : list Z) (i : nat) (d : Z) : result (list Z) :=
  match l !! i with
  | Some v => Ok (<[i := v + d]> l)
  | None => Err IndexError
  end.

(** Rounding of a rational to the nearest integer, ties to even
    ([ROUND_HALF_EVEN]). *)
Definition round_half_even (q : Q) : Z :=
  let n := Qnum q in
  let d := Z.pos (Qden q) in
  let f := n / d in
  let r := n mod d in
  match 2 * r ?= d with
  | Lt => f
  | Gt => f + 1
  | Eq => if Z.even f then f else f + 1
  end.

(** A [dict] with string keys: Python keeps the insertion order, and
    assigning to a key that is present keeps its position. *)
Definition dict : Type := list (string * Z).

Fixpoint get (d : dict) (k : string) : option Z :=
  match d with
  | [] => None
  | (k', v) :: d' => if String.eqb k' k then Some v else get d' k
  end.

(** [d.get(k, default)] *)
Definition get_default (d : dict) (k : string) (default : Z) : Z :=
  match get d k with
  | Some v => v
  | None => default
  end.

(** [d[k] = v] *)
Fixpoint set (d : dict) (k : string) (v : Z) : dict :=
  match d with
  | [] => [(k, v)]
  | (k', v') :: d' =>
      if String.eqb k' k then (k', v) :: d' else (k', v') :: set d' k v
  end.

(** [d[k] += x]; [KeyError] when [k] is absent. *)
Definition add_key (d : dict) (k : string) (x : Z) : result dict :=
  match get d k with
  | Some v => Ok (set d k (v + x))
  | None => Err (KeyError k)
  end.

Definition keys (d : dict) : list string := map fst d.
Definition values (d : dict) : list Z := map snd d.

(** [l.sort(key=lambda x: x[1], reverse=True)]: Python's sort is stable,
    also with [reverse=True]; the stable descending order is unique, so
    insertion sort computes it. *)
Fixpoint insert_desc (x : string * Z) (l : list (string * Z))
  : list (string * Z) :=
  match l with
  | [] => [x]
  | y :: l' => if snd x <? snd y then y :: insert_desc x l' else x :: l
  end.

Fixpoint sort_desc (l : list (string * Z)) : list (string * Z) :=
  match l with
  | [] => []
  | x :: l' => insert_desc x (sort_desc l')
  end.

End Py.

Import Py.

(** ** split_engine.py *)

Module SplitEngine.

(** The enumeration is closed, so the final [else: raise ValueError(...)] of
    [create_splits] has no value to run on. *)
Inductive SplitType : Type := EQUAL | CUSTOM | PERCENTAGE.

(** [(amount / num_participants).quantize(Decimal('0.01'), ROUND_HALF_EVEN)],
    in cents. *)
Definition equal_base (amount num_participants : Z) : Z :=
  round_half_even (inject_Z amount / inject_Z num_participants)%Q.

(** [for i in range(num_adjustments): splits[i] += adjustment], run over
    the index list [range]. *)
Fixpoint adjust (range : list nat) (adjustment : Z) (splits : list Z)
  : result (list Z) :=
  match range with
  | [] => Ok splits
  | i :: range' =>
      bind (add_at splits i adjustment) (adjust range' adjustment)
  end.

Definition split_equal (amount : Z) (num_participants : Z)
  : result (list Z) :=
  if num_participants <=? 0 then
    Err (InvalidInput "Number of participants must be positive")
  else if amount <=? 0 then
    Err (InvalidInput "Amount must be positive")
  else
    let base := equal_base amount num_participants in
    let splits := repeat base (Z.to_nat num_participants) in
    let total := sum splits in
    let diff := amount - total in
    if negb (diff =? 0) then
      let adjustment := if 0 <? diff then 1 else -1 in
      (* [diff * 100] is the difference counted in cents, an integer *)
      let num_adjustments := Z.abs diff in
      adjust (seq 0 (Z.to_nat num_adjustments)) adjustment splits
    else Ok splits.

(** [for amt in custom_amounts: if amt < 0: raise ...] *)
Fixpoint check_custom (amounts : list Z) : result unit :=
  match amounts with
  | [] => Ok tt
  | amt :: amounts' =>
      if amt <? 0 then Err (NegativeAmount "Custom amounts cannot be negative")
      else check_custom amounts'
  end.

Definition split_custom (amount : Z) (custom_amounts : list Z)
  : result (list Z) :=
  let total := sum custom_amounts in
  if negb (total =? amount) then
    Err (SplitMismatch total (amount - total))
  else
    bind (check_custom custom_amounts) (fun _ => Ok custom_amounts).

(** [(amount * pct / 100).quantize(Decimal('0.01'), ROUND_HALF_EVEN)],
    in cents. *)
Definition percentage_share (amount : Z) (pct : Q) : Z :=
  round_half_even (inject_Z amount * pct / inject_Z 100)%Q.

(** The loop that fills [splits], appending one share per percentage. *)
Fixpoint percentage_shares (amount : Z) (percentages : list Q)
    (splits : list Z) : result (list Z) :=
  match percentages with
  | [] => Ok splits
  | pct :: percentages' =>
      if Qlt_le_dec pct (0 # 1) then
        Err (NegativeAmount "Percentages cannot be negative")
      else
        percentage_shares amount percentages'
          (splits ++ [percentage_share amount pct])
  end.

Definition split_percentage (amount : Z) (percentages : list Q)
  : result (list Z) :=
  let total_percentage := sumQ percentages in
  if Qlt_le_dec (1 # 100) (Qabs (total_percentage - inject_Z 100))%Q then
    Err (PercentageMismatch total_percentage)
  else
    bind (percentage_shares amount percentages []) (fun splits =>
      let total := sum splits in
      let diff := amount - total in
      if negb (diff =? 0) then
        match Py.max splits with
        | None => Err EmptySequence
        | Some m =>
            match index m splits with
            | None => Err EmptySequence
            | Some max_idx => add_at splits max_idx diff
            end
        end
      else Ok splits).

(** [not l or len(l) != n] for an optional list argument. *)
Definition missing {A : Type} (l : option (list A)) (n : nat) : bool :=
  match l with
  | None => true
  | Some [] => true
  | Some l' => negb (Nat.eqb (length l') n)
  end.

(** [{user_id: split_amount for user_id, split_amount in zip(ids, amounts)}] *)
Definition zip_dict (ids : list string) (amounts : list Z) : dict :=
  fold_left (fun d '(k, v) => set d k v) (combine ids amounts) [].

Definition create_splits (amount : Z) (split_type : SplitType)
    (participant_ids : list string) (custom_amounts : option (list Z))
    (percentages : option (list Q)) : result dict :=
  let num_participants := length participant_ids in
  if Nat.eqb num_participants 0 then
    Err (InvalidInput "At least one participant required")
  else
    bind
      match split_type with
      | EQUAL => split_equal amount (Z.of_nat num_participants)
      | CUSTOM =>
          if missing custom_amounts num_participants then
            Err (MissingParameters
                   "Custom amounts must be provided for all participants")
          else split_custom amount (default [] custom_amounts)
      | PERCENTAGE =>
          if missing percentages num_participants then
            Err (MissingParameters
                   "Percentages must be provided for all participants")
          else split_percentage amount (default [] percentages)
      end
      (fun split_amounts => Ok (zip_dict participant_ids split_amounts)).

End SplitEngine.

(** ** debt_simplifier.py *)

Module DebtSimplifier.

(** A settlement instruction [(from_user, to_user, amount)]. *)
Definition instruction : Type := string * string * Z.

(** [[(user, abs(balance)) for user, balance in balances.items()
      if balance < -Decimal('0.01')]] *)
Fixpoint debtors_of (balances : dict) : list (string * Z) :=
  match balances with
  | [] => []
  | (user, balance) :: rest =>
      if balance <? -1 then (user, Z.abs balance) :: debtors_of rest
      else debtors_of rest
  end.

(** [[(user, balance) for user, balance in balances.items()
      if balance > Decimal('0.01')]] *)
Fixpoint creditors_of (balances : dict) : list (string * Z) :=
  match balances with
  | [] => []
  | (user, balance) :: rest =>
      if 1 <? balance then (user, balance) :: creditors_of rest
      else creditors_of rest
  end.

(** The variables of the two-pointer loop. *)
Record loop_state : Type := LoopState {
  i : nat;
  j : nat;
  current_debt : Z;
  current_credit : Z;
  transactions : list instruction
}.

Section Sweep.

Variables debtors creditors : list (string * Z).

(** [debtors[i][1] if debtors else Decimal('0')], and the reload
    [if i < len(debtors): current_debt = debtors[i][1]]: the entry is
    read when the index is in range, the old value kept otherwise. *)
Definition load (l : list (string * Z)) (k : nat) (old : Z) : Z :=
  match l !! k with
  | Some (_, amount) => amount
  | None => old
  end.

Definition initial_state : loop_state :=
  {| i := 0; j := 0;
     current_debt := load debtors 0 0;
     current_credit := load creditors 0 0;
     transactions := [] |}.

(** One pass through the [while]: [None] when the loop condition
    [i < len(debtors) and j < len(creditors)] is false, the state after
    the body otherwise.  The two reads [debtors[i]] and [creditors[j]]
    are in range exactly when the condition holds. *)
Definition loop_step (st : loop_state) : option loop_state :=
  match debtors !! i st, creditors !! j st with
  | Some (debtor, _), Some (creditor, _) =>
      let settlement_amount :=
        Z.min (current_debt st) (current_credit st) in
      let transactions' :=
        transactions st ++ [(debtor, creditor, settlement_amount)] in
      let current_debt' := current_debt st - settlement_amount in
      let current_credit' := current_credit st - settlement_amount in
      let '(i', current_debt'') :=
        if current_debt' <? 1
        then (S (i st), load debtors (S (i st)) current_debt')
        else (i st, current_debt') in
      let '(j', current_credit'') :=
        if current_credit' <? 1
        then (S (j st), load creditors (S (j st)) current_credit')
        else (j st, current_credit') in
      Some {| i := i'; j := j';
              current_debt := current_debt'';
              current_credit := current_credit'';
              transactions := transactions' |}
  | _, _ => None
  end.

(** The [while] loop, run for at most [fuel] passes: [None] when the
    fuel runs out before the loop condition turns false. *)
Fixpoint while_loop (fuel : nat) (st : loop_state) : option loop_state :=
  match loop_step st with
  | None => Some st
  | Some st' =>
      match fuel with
      | O => None
      | S fuel' => while_loop fuel' st'
      end
  end.

End Sweep.

Definition sorted_debtors (balances : dict) : list (string * Z) :=
  sort_desc (debtors_of balances).

Definition sorted_creditors (balances : dict) : list (string * Z) :=
  sort_desc (creditors_of balances).

(** The fuel that the loop is given: each pass moves a pointer. *)
Definition passes (balances : dict) : nat :=
  length (sorted_debtors balances) + length (sorted_creditors balances).

Definition simplify_debts_run (fuel : nat) (balances : dict)
  : option loop_state :=
  let debtors := sorted_debtors balances in
  let creditors := sorted_creditors balances in
  while_loop debtors creditors fuel (initial_state debtors creditors).

Definition simplify_debts (balances : dict) : list instruction :=
  match simplify_debts_run (passes balances) balances with
  | Some st => transactions st
  | None => []
  end.

(** Expense and settlement records, as the aggregator reads them:
    [expense['paid_by']], [expense['amount']], [expense['splits']] with
    [split['user_id']] and [split['amount']]; [settlement['paid_by']],
    [settlement['paid_to']], [settlement['amount']]. *)
Record expense : Type := Expense {
  e_paid_by : string;
  e_amount : Z;
  e_splits : list (string * Z)
}.

Record settlement : Type := Settlement {
  s_paid_by : string;
  s_paid_to : string;
  s_amount : Z
}.

(** [balances[k] = balances.get(k, Decimal('0')) + x] *)
Definition credit (balances : dict) (k : string) (x : Z) : dict :=
  set balances k (get_default balances k 0 + x).

Definition process_expense (balances : dict) (e : expense) : dict :=
  let balances := credit balances (e_paid_by e) (e_amount e) in
  fold_left (fun b '(user_id, split_amount) => credit b user_id (- split_amount))
    (e_splits e) balances.

Definition process_settlement (balances : dict) (s : settlement) : dict :=
  let balances := credit balances (s_paid_by s) (- s_amount s) in
  credit balances (s_paid_to s) (s_amount s).

Definition calculate_group_balances (expenses : list expense)
    (settlements : list settlement) : dict :=
  let balances := fold_left process_expense expenses [] in
  fold_left process_settlement settlements balances.

Definition verify_zero_sum (balances : dict) (tolerance : Z) : bool :=
  let total := sum (values balances) in
  Z.abs total <=? tolerance.

(** The tolerance that [verify_zero_sum] takes by default,
    [Decimal('0.01')]. *)
Definition default_tolerance : Z := 1.

(** The replay of the instructions in [test_balance_engine.py]:
    [final_balances[from_user] += amount; final_balances[to_user] -= amount]
    for each instruction, on a copy of the balances. *)
Fixpoint apply_instructions (final_balances : dict)
    (txs : list instruction) : result dict :=
  match txs with
  | [] => Ok final_balances
  | (from_user, to_user, amount) :: txs' =>
      bind (add_key final_balances from_user amount) (fun b =>
      bind (add_key b to_user (- amount)) (fun b' =>
      apply_instructions b' txs'))
  end.

End DebtSimplifier.

(** ** Accounting of a list of instructions

    Quantities used to state and prove what the instructions of
    [simplify_debts] add up to. *)

Module Accounting.

Import DebtSimplifier.

(** The amounts of [l], each counted [w user] times. *)
Definition weighted (w : string -> Z) (l : list (string * Z)) : Z :=
  sum (map (fun '(user, amount) => w user * amount) l).

(** What the instructions make the payers pay and the receivers get. *)
Definition paid (w : string -> Z) (txs : list instruction) : Z :=
  sum (map (fun '(from_user, _, amount) => w from_user * amount) txs).

Definition received (w : string -> Z) (txs : list instruction) : Z :=
  sum (map (fun '(_, to_user, amount) => w to_user * amount) txs).

(** What is settled of [l] when the pointer is at [k] with residual [r]:
    the entries before [k] in full, the entry at [k] up to [r]. *)
Definition settled (w : string -> Z) (l : list (string * Z)) (k : nat)
    (r : Z) : Z :=
  weighted w (take k l)
  + match l !! k with
    | Some (user, amount) => w user * (amount - r)
    | None => 0
    end.

(** The weight that selects one participant. *)
Definition only (user : string) : string -> Z :=
  fun x => if String.eqb x user then 1 else 0.

Definition everyone : string -> Z := fun _ => 1.

(** What a pointer and its residual become after a settlement: the two
    [if ... < Decimal('0.01')] blocks of the loop body. *)
Definition advance (l : list (string * Z)) (k : nat) (r : Z) : nat * Z :=
  if r <? 1 then (S k, load l (S k) r) else (k, r).

(** Invariants of the loop. *)
Section Invariants.

Variables debtors creditors : list (string * Z).

(** Each pass emits one instruction and moves a pointer; the pass that
    emits the last instruction starts with both pointers in range. *)
Definition count_inv (st : loop_state) : Prop :=
  (length (transactions st) <= i st + j st)%nat
  /\ (length (transactions st) = 0
      \/ length (transactions st) + 1 <= length debtors + length creditors)%nat.

(** Instructions go from a debtor to a creditor. *)
Definition names_inv (st : loop_state) : Prop :=
  forall from_user to_user amount,
    In (from_user, to_user, amount) (transactions st) ->
    In from_user (map fst debtors) /\ In to_user (map fst creditors).

(** The residual of the entry under a pointer. *)
Definition residual_ok (l : list (string * Z)) (k : nat) (r : Z) : Prop :=
  match l !! k with
  | Some (_, amount) => 1 <= r <= amount
  | None => True
  end.

(** The instructions emitted so far are what has been settled on each
    side, for every way of weighting the participants. *)
Definition ledger_inv (st : loop_state) : Prop :=
  (forall w, paid w (transactions st)
             = settled w debtors (i st) (current_debt st))
  /\ (forall w, received w (transactions st)
                = settled w creditors (j st) (current_credit st))
  /\ residual_ok debtors (i st) (current_debt st)
  /\ residual_ok creditors (j st) (current_credit st).

End Invariants.

End Accounting.

(** ** Order of the sorted lists *)

Module Order.

(** Every entry is at least as large as all the entries after it. *)
Fixpoint descending (l : list (string * Z)) : Prop :=
  match l with
  | [] => True
  | x :: l' => Forall (fun y => snd y <= snd x) l' /\ descending l'
  end.

(** The entries of [l] whose amount is [a], in the order of [l]. *)
Definition with_amount (a : Z) (l : list (string * Z)) : list (string * Z) :=
  List.filter (fun e => snd e =? a) l.

End Order.

(** ** Totals of a ledger

    The four totals of the docstring of [calculate_group_balances],
    [amount_paid - amount_owed + settlements_received - settlements_made],
    and the participants that the records mention. *)

Module Ledger.

Import DebtSimplifier Accounting.

Definition amount_paid (user : string) (expenses : list expense) : Z :=
  sum (map (fun e => only user (e_paid_by e) * e_amount e) expenses).

Definition amount_owed (user : string) (expenses : list expense) : Z :=
  sum (map (fun e => weighted (only user) (e_splits e)) expenses).

Definition settlements_received (user : string) (settlements : list settlement)
  : Z :=
  sum (map (fun s => only user (s_paid_to s) * s_amount s) settlements).

Definition settlements_made (user : string) (settlements : list settlement)
  : Z :=
  sum (map (fun s => only user (s_paid_by s) * s_amount s) settlements).

(** Everyone named in an expense, then everyone named in a settlement. *)
Definition expense_parties (e : expense) : list string :=
  e_paid_by e :: map fst (e_splits e).

Definition settlement_parties (s : settlement) : list string :=
  [s_paid_by s; s_paid_to s].

Definition parties (expenses : list expense) (settlements : list settlement)
  : list string :=
  concat (map expense_parties expenses)
  ++ concat (map settlement_parties settlements).

(** One state of the aggregation, seen from one participant: the balance
    so far, the keys without repetition, and who has an entry. *)
Definition tracks (balances : dict) (user : string) (value : Z)
    (mentioned : list string) : Prop :=
  get_default balances user 0 = value
  /\ NoDup (keys balances)
  /\ (In user (keys balances) <-> In user mentioned).

End Ledger.

(** ** api/expenses.py: what the endpoints compute from the records

    The endpoints read and write rows; what is embedded is the data that
    they pass to and take from the split engine and the debt simplifier.
    An amount read back from a row goes through [float(...)] and
    [Decimal(str(...))], which gives back the same number of cents. *)

Module Api.

Import SplitEngine DebtSimplifier.



(** [simplify_group_debts]: the instructions and [total_transactions]. *)
Definition simplify_group_debts (expenses : list expense)
  : list instruction * nat :=
  let balances := calculate_group_balances expenses [] in
  let transactions := simplify_debts balances in
  (transactions, length transactions).

End Api.

(** * Properties *)

(** ** The cases of the test suite *)

Module TestSuite.

Import SplitEngine DebtSimplifier.
Local Open Scope string_scope.

Example test_equal_split_large_amount :
  split_equal 123456 7 = Ok [17636; 17636; 17636; 17637; 17637; 17637; 17637].
Proof. reflexivity. Qed.

Example test_equal_split_one_cent : split_equal 1 2 = Ok [1; 0].
Proof. reflexivity. Qed.

Example test_equal_split_negative_diff :
  split_equal 100001 7 = Ok [14285; 14286; 14286; 14286; 14286; 14286; 14286].
Proof. reflexivity. Qed.

Example test_custom_split_valid :
  split_custom 10000 [5000; 3000; 2000] = Ok [5000; 3000; 2000].
Proof. reflexivity. Qed.

Example test_percentage_split :
  split_percentage 10000 [50 # 1; 30 # 1; 20 # 1]%Q = Ok [5000; 3000; 2000].
Proof. reflexivity. Qed.

Example test_percentage_split_with_rounding :
  split_percentage 10000 [3333 # 100; 3333 # 100; 3334 # 100]%Q
  = Ok [3333; 3333; 3334].
Proof. reflexivity. Qed.

Example test_create_splits_equal :
  create_splits 9999 EQUAL ["user1"; "user2"; "user3"] None None
  = Ok [("user1", 3333); ("user2", 3333); ("user3", 3333)].
Proof. reflexivity. Qed.

Example test_simple_debt_simplification :
  simplify_debts [("Alice", 5000); ("Bob", -3000); ("Charlie", -2000)]
  = [("Bob", "Alice", 3000); ("Charlie", "Alice", 2000)].
Proof. reflexivity. Qed.

Example test_complex_debt_simplification :
  simplify_debts [("A", 10000); ("B", -5000); ("C", -3000); ("D", -2000)]
  = [("B", "A", 5000); ("C", "A", 3000); ("D", "A", 2000)].
Proof. reflexivity. Qed.

Example test_already_balanced :
  simplify_debts [("A", 0); ("B", 0); ("C", 0)] = [].
Proof. reflexivity. Qed.

Example test_calculate_group_balances :
  calculate_group_balances
    [Expense "alice" 10000 [("alice", 5000); ("bob", 5000)]] []
  = [("alice", 5000); ("bob", -5000)].
Proof. reflexivity. Qed.

Example test_complex_expense_scenario :
  calculate_group_balances
    [Expense "alice" 12000 [("alice", 4000); ("bob", 4000); ("charlie", 4000)];
     Expense "bob" 6000 [("bob", 3000); ("charlie", 3000)]] []
  = [("alice", 8000); ("bob", -1000); ("charlie", -7000)].
Proof. reflexivity. Qed.

Example test_verify_zero_sum_invalid :
  verify_zero_sum [("Alice", 5000); ("Bob", -3000)] default_tolerance = false.
Proof. reflexivity. Qed.

End TestSuite.

(** ** Sums and in-place updates *)

Section ListFacts.

Lemma fold_add_shift (l : list Z) (a : Z) :
  fold_left Z.add l a = a + fold_left Z.add l 0.
Proof.
  revert a. induction l as [|x l IH]; intros a; simpl.
  - lia.
  - rewrite (IH (a + x)), (IH (0 + x)). lia.
Qed.

Lemma sum_nil : sum [] = 0.
Proof. reflexivity. Qed.

Lemma sum_cons (x : Z) (l : list Z) : sum (x :: l) = x + sum l.
Proof. unfold sum. simpl. apply fold_add_shift. Qed.

Lemma sum_app (l1 l2 : list Z) : sum (l1 ++ l2) = sum l1 + sum l2.
Proof.
  induction l1 as [|x l1 IH]; simpl.
  - rewrite sum_nil. lia.
  - rewrite !sum_cons, IH. lia.
Qed.

Lemma sum_repeat (x : Z) (n : nat) : sum (repeat x n) = Z.of_nat n * x.
Proof.
  induction n as [|n IH].
  - reflexivity.
  - cbn [repeat]. rewrite sum_cons, IH. lia.
Qed.

Lemma sum_insert (l : list Z) (k : nat) (v w : Z) :
  l !! k = Some v -> sum (<[k := w]> l) = sum l - v + w.
Proof.
  revert k. induction l as [|x l IH]; intros [|k] H; simpl in *; try discriminate.
  - injection H as ->. rewrite !sum_cons. lia.
  - rewrite !sum_cons, (IH k H). lia.
Qed.


End ListFacts.

(** ** The split engine *)

Module SplitEngineProofs.

Import SplitEngine.

(** The rounded quotient is within half a unit of the exact one. *)
Lemma equal_base_close (amount n : Z) :
  0 < n -> 2 * Z.abs (amount - n * equal_base amount n) <= n.
Proof.
  intros Hn. unfold equal_base, round_half_even.
  destruct n as [|p|p]; try lia.
  cbn [inject_Z Qdiv Qinv Qmult Qnum Qden].
  rewrite Z.mul_1_r, Pos.mul_1_l.
  pose proof (Z.div_mod amount (Z.pos p) ltac:(lia)) as Hdm.
  pose proof (Z.mod_pos_bound amount (Z.pos p) ltac:(lia)) as Hb.
  generalize dependent (amount / Z.pos p).
  generalize dependent (amount mod Z.pos p).
  generalize dependent (Z.pos p).
  intros d Hd r Hr f Hdm.
  assert (Hlow : amount - d * f = r) by lia.
  assert (Hhigh : amount - d * (f + 1) = r - d) by (rewrite Hdm; ring).
  destruct (Z.compare_spec (2 * r) d) as [Hc|Hc|Hc].
  - destruct (Z.even f); rewrite ?Hlow, ?Hhigh; lia.
  - rewrite Hlow. lia.
  - rewrite Hhigh. lia.
Qed.





(** C7. [split_equal(10.00, 3)] returns exactly [[3.34, 3.33, 3.33]]: the
    base share is 10.00 / 3 rounded half to even at two decimals, 3.33,
    the remainder is one cent, and the first participant absorbs it. *)
Theorem split_equal_10_3 :
  equal_base 1000 3 = 333
  /\ 1000 - sum (repeat 333 3) = 1
  /\ split_equal 1000 3 = Ok [334; 333; 333].
Proof.
  repeat split; reflexivity.
Qed.






Lemma percentage_shares_ok (amount : Z) (percentages : list Q)
    (acc splits : list Z) :
  percentage_shares amount percentages acc = Ok splits ->
  splits = acc ++ map (percentage_share amount) percentages.
Proof.
  revert acc. induction percentages as [|pct percentages IH]; intros acc H;
    cbn [percentage_shares map] in *.
  - injection H as <-. symmetry. apply app_nil_r.
  - destruct (Qlt_le_dec pct (0 # 1)); [discriminate H|].
    rewrite (IH _ H), <- app_assoc. reflexivity.
Qed.

Lemma max_upper (l : list Z) (m : Z) :
  Py.max l = Some m -> In m l /\ forall x, In x l -> x <= m.
Proof.
  revert m. induction l as [|y l IH]; intros m H; cbn [Py.max] in H.
  - discriminate H.
  - destruct (Py.max l) as [m'|] eqn:Hm.
    + injection H as <-. destruct (IH m' eq_refl) as [Hin Hle]. split.
      * destruct (Z.max_spec y m') as [[_ ->]|[_ ->]]; [right; exact Hin|left; reflexivity].
      * intros x [<-|Hx]; [lia|]. specialize (Hle x Hx). lia.
    + injection H as <-. destruct l as [|z l].
      * split; [left; reflexivity|]. intros x [<-|[]]. lia.
      * cbn [Py.max] in Hm. destruct (Py.max l); discriminate Hm.
Qed.

Lemma index_first (x : Z) (l : list Z) (k : nat) :
  index x l = Some k ->
  l !! k = Some x /\ forall k' y, (k' < k)%nat -> l !! k' = Some y -> y <> x.
Proof.
  revert k. induction l as [|z l IH]; intros k H; cbn [index] in H.
  - discriminate H.
  - destruct (Z.eqb_spec z x) as [->|Hne].
    + injection H as <-. split; [reflexivity|]. intros k' y Hk'. lia.
    + destruct (index x l) as [k0|]; [|discriminate H].
      injection H as <-. destruct (IH k0 eq_refl) as [Hk0 Hbefore].
      split; [exact Hk0|].
      intros [|k'] y Hk' Hy; cbn in Hy.
      * injection Hy as <-. exact Hne.
      * apply (Hbefore k' y); [lia|exact Hy].
Qed.



Lemma create_splits_equal_nonpositive (amount : Z)
    (participant_ids : list string) (custom : option (list Z))
    (percentages : option (list Q)) :
  amount <= 0 ->
  exists msg,
    create_splits amount EQUAL participant_ids custom percentages
    = Err (InvalidInput msg).
Proof.
  intros Ha. unfold create_splits.
  destruct participant_ids as [|id ids]; [eexists; reflexivity|].
  cbn [length Nat.eqb]. unfold split_equal.
  destruct (Z.leb_spec (Z.of_nat (S (length ids))) 0); [lia|].
  destruct (Z.leb_spec amount 0); [|lia].
  eexists; reflexivity.
Qed.


End SplitEngineProofs.

(** ** Dictionaries *)

Section DictFacts.


Lemma get_set (d : dict) (k k' : string) (v : Z) :
  get (set d k v) k' = if String.eqb k k' then Some v else get d k'.
Proof.
  induction d as [|[k0 v0] d IH]; cbn [set get].
  - reflexivity.
  - destruct (String.eqb_spec k0 k) as [->|Hne]; cbn [get].
    + destruct (String.eqb k k'); reflexivity.
    + rewrite IH. destruct (String.eqb_spec k0 k') as [->|Hne'].
      * destruct (String.eqb_spec k k'); [congruence|reflexivity].
      * reflexivity.
Qed.

Lemma keys_set_present (d : dict) (k : string) (v v0 : Z) :
  get d k = Some v0 -> keys (set d k v) = keys d.
Proof.
  unfold keys. induction d as [|[k' v'] d IH]; cbn [set get map fst]; intros H.
  - discriminate H.
  - destruct (String.eqb k' k); cbn [map fst]; [reflexivity|].
    rewrite (IH H). reflexivity.
Qed.

Lemma get_is_Some (d : dict) (k : string) :
  In k (keys d) -> exists v, get d k = Some v.
Proof.
  unfold keys. induction d as [|[k' v'] d IH]; cbn [get map fst].
  - intros [].
  - intros [->|Hin].
    + rewrite String.eqb_refl. eexists; reflexivity.
    + destruct (String.eqb k' k); [eexists; reflexivity|exact (IH Hin)].
Qed.

Lemma get_of_In (d : dict) (k : string) (v : Z) :
  NoDup (keys d) -> In (k, v) d -> get d k = Some v.
Proof.
  unfold keys. induction d as [|[k' v'] d IH]; cbn [get map fst]; intros Hnd Hin.
  - destruct Hin.
  - apply NoDup_cons in Hnd as [Hnotin Hnd].
    destruct Hin as [Heq|Hin].
    + injection Heq as -> ->. rewrite String.eqb_refl. reflexivity.
    + destruct (String.eqb_spec k' k) as [->|Hne].
      * exfalso. apply Hnotin, list_elem_of_In.
        apply (in_map fst) in Hin. exact Hin.
      * exact (IH Hnd Hin).
Qed.

Lemma get_In (d : dict) (k : string) (v : Z) :
  get d k = Some v -> In (k, v) d.
Proof.
  induction d as [|[k' v'] d IH]; cbn [get]; intros H.
  - discriminate H.
  - destruct (String.eqb_spec k' k) as [->|Hne].
    + injection H as ->. left; reflexivity.
    + right. exact (IH H).
Qed.

End DictFacts.

(** ** The balance aggregator *)

Module AggregatorProofs.

Import DebtSimplifier.









End AggregatorProofs.

(** ** The debt simplifier *)

Module SimplifierProofs.

Import DebtSimplifier Accounting.

(** *** Sorting keeps the entries *)

Lemma insert_desc_perm (x : string * Z) (l : list (string * Z)) :
  Permutation (insert_desc x l) (x :: l).
Proof.
  induction l as [|y l IH]; cbn [insert_desc].
  - reflexivity.
  - destruct (snd x <? snd y); [|reflexivity].
    rewrite IH. apply perm_swap.
Qed.

Lemma sort_desc_perm (l : list (string * Z)) : Permutation (sort_desc l) l.
Proof.
  induction l as [|x l IH]; cbn [sort_desc].
  - reflexivity.
  - rewrite insert_desc_perm, IH. reflexivity.
Qed.

Lemma sorted_debtors_length (balances : dict) :
  length (sorted_debtors balances) = length (debtors_of balances).
Proof. apply Permutation_length, sort_desc_perm. Qed.

Lemma sorted_creditors_length (balances : dict) :
  length (sorted_creditors balances) = length (creditors_of balances).
Proof. apply Permutation_length, sort_desc_perm. Qed.

Lemma debtors_of_In (balances : dict) (user : string) (amount : Z) :
  In (user, amount) (debtors_of balances) ->
  exists balance, In (user, balance) balances /\ balance < -1 /\ amount = - balance.
Proof.
  induction balances as [|[u b] rest IH]; cbn [debtors_of].
  - intros [].
  - destruct (Z.ltb_spec b (-1)) as [Hlt|Hge].
    + intros [Heq|Hin].
      * injection Heq as <- <-. exists b. split; [left; reflexivity|]. lia.
      * destruct (IH Hin) as (b' & Hb' & Hlt' & ->).
        exists b'. split; [right; exact Hb'|]. lia.
    + intros Hin. destruct (IH Hin) as (b' & Hb' & Hlt' & ->).
      exists b'. split; [right; exact Hb'|]. lia.
Qed.

Lemma creditors_of_In (balances : dict) (user : string) (amount : Z) :
  In (user, amount) (creditors_of balances) ->
  In (user, amount) balances /\ 1 < amount.
Proof.
  induction balances as [|[u b] rest IH]; cbn [creditors_of].
  - intros [].
  - destruct (Z.ltb_spec 1 b) as [Hlt|Hge].
    + intros [Heq|Hin].
      * injection Heq as <- <-. split; [left; reflexivity|exact Hlt].
      * destruct (IH Hin) as [Hb' Hlt']. split; [right; exact Hb'|exact Hlt'].
    + intros Hin. destruct (IH Hin) as [Hb' Hlt'].
      split; [right; exact Hb'|exact Hlt'].
Qed.

Lemma sorted_debtors_In (balances : dict) (user : string) (amount : Z) :
  In (user, amount) (sorted_debtors balances) ->
  exists balance, In (user, balance) balances /\ balance < -1 /\ amount = - balance.
Proof.
  intros Hin. apply debtors_of_In.
  eapply Permutation_in; [apply sort_desc_perm|exact Hin].
Qed.

Lemma sorted_creditors_In (balances : dict) (user : string) (amount : Z) :
  In (user, amount) (sorted_creditors balances) ->
  In (user, amount) balances /\ 1 < amount.
Proof.
  intros Hin. apply creditors_of_In.
  eapply Permutation_in; [apply sort_desc_perm|exact Hin].
Qed.

(** *** One pass of the loop *)

Section Sweep.

Variables debtors creditors : list (string * Z).

Lemma loop_step_Some (st st' : loop_state) :
  loop_step debtors creditors st = Some st' ->
  exists debtor owed creditor due,
    debtors !! i st = Some (debtor, owed)
    /\ creditors !! j st = Some (creditor, due)
    /\ transactions st'
       = transactions st
           ++ [(debtor, creditor, Z.min (current_debt st) (current_credit st))]
    /\ (i st', current_debt st')
       = advance debtors (i st)
           (current_debt st - Z.min (current_debt st) (current_credit st))
    /\ (j st', current_credit st')
       = advance creditors (j st)
           (current_credit st - Z.min (current_debt st) (current_credit st)).
Proof.
  unfold loop_step, advance. intros H.
  destruct (debtors !! i st) as [[debtor owed]|]; [|discriminate H].
  destruct (creditors !! j st) as [[creditor due]|]; [|discriminate H].
  exists debtor, owed, creditor, due.
  destruct (_ - _ <? 1); destruct (_ - _ <? 1);
    injection H as <-; cbn; repeat split; reflexivity.
Qed.

Lemma loop_step_None (st : loop_state) :
  loop_step debtors creditors st = None <->
  ~ (i st < length debtors /\ j st < length creditors)%nat.
Proof.
  unfold loop_step. split.
  - intros H [Hi Hj].
    destruct (lookup_lt_is_Some_2 _ _ Hi) as [[d a] Hd].
    destruct (lookup_lt_is_Some_2 _ _ Hj) as [[c a'] Hc].
    rewrite Hd, Hc in H.
    destruct (_ - _ <? 1); destruct (_ - _ <? 1); discriminate H.
  - intros H.
    destruct (debtors !! i st) as [[d a]|] eqn:Hd; [|reflexivity].
    destruct (creditors !! j st) as [[c a']|] eqn:Hc; [|reflexivity].
    exfalso. apply H. split; eapply lookup_lt_Some; eassumption.
Qed.

Lemma loop_step_advance (st st' : loop_state) :
  loop_step debtors creditors st = Some st' ->
  (i st < length debtors)%nat /\ (j st < length creditors)%nat
  /\ (i st <= i st' <= S (i st))%nat /\ (j st <= j st' <= S (j st))%nat
  /\ (i st' = S (i st) \/ j st' = S (j st))
  /\ length (transactions st') = S (length (transactions st)).
Proof.
  intros H. destruct (loop_step_Some _ _ H)
    as (debtor & owed & creditor & due & Hd & Hc & Htx & Hi & Hj).
  unfold advance in Hi, Hj.
  split; [eapply lookup_lt_Some; exact Hd|].
  split; [eapply lookup_lt_Some; exact Hc|].
  rewrite Htx, length_app. cbn [length].
  destruct (Z.ltb_spec (current_debt st - Z.min (current_debt st) (current_credit st)) 1);
    destruct (Z.ltb_spec (current_credit st - Z.min (current_debt st) (current_credit st)) 1);
    injection Hi as -> _; injection Hj as -> _; lia.
Qed.

(** *** The loop *)

Lemma while_loop_exits (fuel : nat) (st : loop_state) :
  (length debtors - i st + (length creditors - j st) <= fuel)%nat ->
  exists st', while_loop debtors creditors fuel st = Some st'
              /\ loop_step debtors creditors st' = None.
Proof.
  revert st. induction fuel as [|fuel IH]; intros st Hfuel; cbn [while_loop].
  - destruct (loop_step debtors creditors st) as [st1|] eqn:Hstep.
    + apply loop_step_advance in Hstep. lia.
    + exists st. split; [reflexivity|exact Hstep].
  - destruct (loop_step debtors creditors st) as [st1|] eqn:Hstep.
    + apply IH. apply loop_step_advance in Hstep. lia.
    + exists st. split; [reflexivity|exact Hstep].
Qed.

Lemma while_loop_more_fuel (fuel fuel' : nat) (st st' : loop_state) :
  while_loop debtors creditors fuel st = Some st' ->
  (fuel <= fuel')%nat ->
  while_loop debtors creditors fuel' st = Some st'.
Proof.
  revert fuel' st. induction fuel as [|fuel IH]; intros fuel' st H Hle;
    cbn [while_loop] in H.
  - destruct fuel'; cbn [while_loop];
      destruct (loop_step debtors creditors st); congruence.
  - destruct fuel' as [|fuel']; [lia|]. cbn [while_loop].
    destruct (loop_step debtors creditors st); [|exact H].
    apply (IH fuel' _ H). lia.
Qed.

Lemma while_loop_invariant (P : loop_state -> Prop) :
  (forall st st', P st -> loop_step debtors creditors st = Some st' -> P st') ->
  forall fuel st st',
    P st -> while_loop debtors creditors fuel st = Some st' ->
    P st' /\ loop_step debtors creditors st' = None.
Proof.
  intros Hstep. induction fuel as [|fuel IH]; intros st st' HP H;
    cbn [while_loop] in H.
  - destruct (loop_step debtors creditors st) eqn:Hs; [discriminate H|].
    injection H as <-. split; assumption.
  - destruct (loop_step debtors creditors st) as [st1|] eqn:Hs.
    + apply (IH st1 st'); [eapply Hstep; eassumption|exact H].
    + injection H as <-. split; assumption.
Qed.

(** *** Number of instructions *)

Lemma count_inv_step (st st' : loop_state) :
  count_inv debtors creditors st -> loop_step debtors creditors st = Some st' ->
  count_inv debtors creditors st'.
Proof.
  unfold count_inv. intros [Hle _] Hstep.
  apply loop_step_advance in Hstep. lia.
Qed.

(** *** Who is named in the instructions *)

Lemma names_inv_step (st st' : loop_state) :
  names_inv debtors creditors st ->
  loop_step debtors creditors st = Some st' ->
  names_inv debtors creditors st'.
Proof.
  unfold names_inv. intros Hinv Hstep f t a Hin.
  destruct (loop_step_Some _ _ Hstep)
    as (debtor & owed & creditor & due & Hd & Hc & Htx & _).
  rewrite Htx in Hin. apply in_app_or in Hin as [Hin|[Heq|[]]].
  - exact (Hinv f t a Hin).
  - injection Heq as <- <- <-. split.
    + apply (in_map fst _ (debtor, owed)), list_elem_of_In.
      eapply list_elem_of_lookup_2; exact Hd.
    + apply (in_map fst _ (creditor, due)), list_elem_of_In.
      eapply list_elem_of_lookup_2; exact Hc.
Qed.

End Sweep.

(** *** What the instructions add up to *)

Lemma weighted_nil (w : string -> Z) : weighted w [] = 0.
Proof. reflexivity. Qed.

Lemma weighted_cons (w : string -> Z) (user : string) (amount : Z)
    (l : list (string * Z)) :
  weighted w ((user, amount) :: l) = w user * amount + weighted w l.
Proof. unfold weighted. cbn [map]. apply sum_cons. Qed.

Lemma weighted_app (w : string -> Z) (l1 l2 : list (string * Z)) :
  weighted w (l1 ++ l2) = weighted w l1 + weighted w l2.
Proof. unfold weighted. rewrite map_app. apply sum_app. Qed.




Lemma paid_snoc (w : string -> Z) (txs : list instruction)
    (from_user to_user : string) (amount : Z) :
  paid w (txs ++ [(from_user, to_user, amount)])
  = paid w txs + w from_user * amount.
Proof.
  unfold paid. rewrite map_app, sum_app. cbn [map].
  rewrite sum_cons, sum_nil, Z.add_0_r. reflexivity.
Qed.

Lemma received_snoc (w : string -> Z) (txs : list instruction)
    (from_user to_user : string) (amount : Z) :
  received w (txs ++ [(from_user, to_user, amount)])
  = received w txs + w to_user * amount.
Proof.
  unfold received. rewrite map_app, sum_app. cbn [map].
  rewrite sum_cons, sum_nil, Z.add_0_r. reflexivity.
Qed.


Section OneSide.

Variable l : list (string * Z).
Hypothesis amounts_above_tolerance : Forall (fun e => 2 <= snd e) l.

Lemma amount_at (k : nat) (user : string) (amount : Z) :
  l !! k = Some (user, amount) -> 2 <= amount.
Proof.
  intros H. eapply (Forall_lookup_1 _ _ _ _ amounts_above_tolerance) in H.
  exact H.
Qed.

Lemma settled_initial (w : string -> Z) :
  settled w l 0 (load l 0 0) = 0 /\ residual_ok l 0 (load l 0 0).
Proof.
  unfold settled, residual_ok, load. cbn [take]. rewrite weighted_nil.
  destruct (l !! 0%nat) as [[user amount]|] eqn:H.
  - apply amount_at in H. split; [ring|lia].
  - split; [reflexivity|exact I].
Qed.

Lemma advance_settled (k k' : nat) (r r' m : Z) (user : string)
    (amount : Z) :
  l !! k = Some (user, amount) ->
  residual_ok l k r ->
  1 <= m <= r ->
  advance l k (r - m) = (k', r') ->
  (forall w, settled w l k' r' = settled w l k r + w user * m)
  /\ residual_ok l k' r'.
Proof.
  unfold advance, residual_ok. intros Hk Hr Hm Hadv. rewrite Hk in Hr.
  destruct (Z.ltb_spec (r - m) 1) as [Hlt|Hge]; injection Hadv as <- <-.
  - assert (r = m) as -> by lia.
    unfold settled, load. rewrite (take_S_r _ _ _ Hk), Hk.
    destruct (l !! S k) as [[user' amount']|] eqn:Hnext.
    + apply amount_at in Hnext. split; [|lia].
      intros w. rewrite weighted_app, weighted_cons, weighted_nil. ring.
    + split; [|exact I].
      intros w. rewrite weighted_app, weighted_cons, weighted_nil. ring.
  - unfold settled. rewrite Hk. split; [|lia].
    intros w. ring.
Qed.



End OneSide.

(** *** The whole function *)

Lemma simplify_debts_invariant (balances : dict) (P : loop_state -> Prop) :
  let debtors := sorted_debtors balances in
  let creditors := sorted_creditors balances in
  P (initial_state debtors creditors) ->
  (forall st st', P st -> loop_step debtors creditors st = Some st' -> P st') ->
  exists st,
    simplify_debts_run (passes balances) balances = Some st
    /\ simplify_debts balances = transactions st
    /\ P st
    /\ loop_step debtors creditors st = None.
Proof.
  intros debtors creditors Hinit Hstep.
  destruct (while_loop_exits debtors creditors (passes balances)
              (initial_state debtors creditors)) as (st & Hrun & Hnone).
  { unfold passes. fold debtors creditors. cbn. lia. }
  exists st. split; [exact Hrun|].
  split.
  { unfold simplify_debts, simplify_debts_run. fold debtors creditors.
    rewrite Hrun. reflexivity. }
  split; [|exact Hnone].
  exact (proj1 (while_loop_invariant debtors creditors P Hstep _ _ _ Hinit Hrun)).
Qed.

(** C10. [simplify_debts] terminates on every balance map.  In every
    pass of the loop the settled amount is the minimum of the two
    residuals, so one residual becomes zero and its pointer moves to the
    next entry, no pointer moves back; after at most
    [len(debtors) + len(creditors)] passes the loop condition is false,
    and more passes would not change the result. *)
Theorem simplify_debts_terminates (balances : dict) :
  let debtors := sorted_debtors balances in
  let creditors := sorted_creditors balances in
  (forall st st',
      loop_step debtors creditors st = Some st' ->
      let settlement_amount := Z.min (current_debt st) (current_credit st) in
      (current_debt st - settlement_amount = 0
       \/ current_credit st - settlement_amount = 0)
      /\ (i st <= i st')%nat /\ (j st <= j st')%nat
      /\ (i st' = S (i st) \/ j st' = S (j st)))
  /\ exists st,
       simplify_debts_run (passes balances) balances = Some st
       /\ loop_step debtors creditors st = None
       /\ simplify_debts balances = transactions st
       /\ forall fuel, (passes balances <= fuel)%nat ->
                       simplify_debts_run fuel balances = Some st.
Proof.
  intros debtors creditors. split.
  - intros st st' Hstep. apply loop_step_advance in Hstep.
    cbn zeta. split; [lia|]. split; [lia|]. split; [lia|]. tauto.
  - destruct (simplify_debts_invariant balances (fun _ => True) I
                (fun _ _ _ _ => I)) as (st & Hrun & Hres & _ & Hnone).
    exists st. split; [exact Hrun|]. split; [exact Hnone|].
    split; [exact Hres|].
    intros fuel Hle. unfold simplify_debts_run in *.
    eapply while_loop_more_fuel; eassumption.
Qed.

Lemma simplify_debts_terminates_witness :
  let balances := [("Alice", 5000); ("Bob", -3000); ("Charlie", -2000)]%string in
  let debtors := sorted_debtors balances in
  let creditors := sorted_creditors balances in
  let st := initial_state debtors creditors in
  exists st',
    loop_step debtors creditors st = Some st'
    /\ (i st <= i st')%nat /\ (j st <= j st')%nat
    /\ (i st' = S (i st) \/ j st' = S (j st)).
Proof.
  intros balances debtors creditors st.
  exists {| i := 1; j := 0; current_debt := 2000; current_credit := 2000;
            transactions := [("Bob", "Alice", 3000)]%string |}.
  split; [reflexivity|].
  apply (proj1 (simplify_debts_terminates balances) st).
  reflexivity.
Defined.

(** C8, amended. The number of instructions returned by
    [simplify_debts] is at most
    [max(0, #debtors + #creditors - 1)], where the debtors are the
    participants with balance < -0.01 and the creditors those with
    balance > 0.01: at most [#debtors + #creditors - 1] when there is a
    debtor or a creditor, and zero when there is none. *)
Theorem instruction_count_bound (balances : dict) :
  Z.of_nat (length (simplify_debts balances))
  <= Z.max 0 (Z.of_nat (length (debtors_of balances))
              + Z.of_nat (length (creditors_of balances)) - 1).
Proof.
  destruct (simplify_debts_invariant balances
              (count_inv (sorted_debtors balances) (sorted_creditors balances)))
    as (st & _ & -> & [_ Hcount] & _).
  - split; cbn; lia.
  - intros st st'. apply count_inv_step.
  - rewrite sorted_debtors_length, sorted_creditors_length in Hcount. lia.
Qed.

(** C8 as stated fails on a map without debtor and creditor, such as the
    settled map of [test_already_balanced]: no instruction, and a bound
    of -1. *)
Lemma instruction_count_bound_counterexample :
  let balances := [("A", 0); ("B", 0); ("C", 0)]%string in
  ~ (Z.of_nat (length (simplify_debts balances))
     <= Z.of_nat (length (debtors_of balances))
        + Z.of_nat (length (creditors_of balances)) - 1).
Proof.
  cbn. lia.
Qed.

Lemma simplify_debts_names (balances : dict) (from_user to_user : string)
    (amount : Z) :
  In (from_user, to_user, amount) (simplify_debts balances) ->
  (exists balance, In (from_user, balance) balances /\ balance < -1)
  /\ (exists balance, In (to_user, balance) balances /\ 1 < balance).
Proof.
  destruct (simplify_debts_invariant balances
              (names_inv (sorted_debtors balances) (sorted_creditors balances)))
    as (st & _ & -> & Hnames & _).
  - intros f t a [].
  - intros st st'. apply names_inv_step.
  - intros Hin. destruct (Hnames _ _ _ Hin) as [Hf Ht].
    apply in_map_iff in Hf as ([f a] & <- & Hf).
    apply in_map_iff in Ht as ([t a'] & <- & Ht).
    apply sorted_debtors_In in Hf as (b & Hb & Hlt & _).
    apply sorted_creditors_In in Ht as [Hb' Hlt'].
    split; eexists; split; eassumption.
Qed.

Lemma no_creditor_no_instruction (balances : dict) :
  creditors_of balances = [] -> simplify_debts balances = [].
Proof.
  intros Hnone.
  unfold simplify_debts, simplify_debts_run, sorted_creditors.
  rewrite Hnone. cbn [sort_desc].
  destruct (passes balances); cbn [while_loop]; unfold loop_step; cbn;
    destruct (sorted_debtors balances) as [|[d a] l]; reflexivity.
Qed.

Lemma creditors_of_nil (balances : dict) :
  (forall user balance, In (user, balance) balances -> balance <= 1) ->
  creditors_of balances = [].
Proof.
  induction balances as [|[u b] rest IH]; intros H; cbn [creditors_of].
  - reflexivity.
  - destruct (Z.ltb_spec 1 b) as [Hlt|_].
    + specialize (H u b (or_introl eq_refl)). lia.
    + apply IH. intros user balance Hin. apply (H user balance). right. exact Hin.
Qed.

(** C9. In a balance map (a dict: no key twice), a participant whose
    balance is within the tolerance, [abs(balance) <= 0.01] with
    exactly +0.01 and -0.01 included, is named in no instruction of
    [simplify_debts], neither as payer nor as receiver; and when no
    balance of the map exceeds the tolerance the list of instructions is
    empty (already when no balance is above +0.01, whatever the negative
    ones are). *)
Theorem settled_participants_excluded (balances : dict) :
  NoDup (keys balances) ->
  (forall user balance,
      In (user, balance) balances -> Z.abs balance <= 1 ->
      forall from_user to_user amount,
        In (from_user, to_user, amount) (simplify_debts balances) ->
        from_user <> user /\ to_user <> user)
  /\ ((forall user balance, In (user, balance) balances -> balance <= 1) ->
      simplify_debts balances = []).
Proof.
  intros Hnd. split.
  - intros user balance Hin Habs f t a Htx.
    destruct (simplify_debts_names _ _ _ _ Htx) as [(bf & Hbf & Hlt) (bt & Hbt & Hgt)].
    split; intros ->.
    + pose proof (get_of_In _ _ _ Hnd Hin) as H1.
      pose proof (get_of_In _ _ _ Hnd Hbf) as H2. rewrite H1 in H2.
      injection H2 as ->. lia.
    + pose proof (get_of_In _ _ _ Hnd Hin) as H1.
      pose proof (get_of_In _ _ _ Hnd Hbt) as H2. rewrite H1 in H2.
      injection H2 as ->. lia.
  - intros Hall. apply no_creditor_no_instruction, creditors_of_nil, Hall.
Qed.

(** *** Replaying the instructions *)

Lemma ledger_inv_step (debtors creditors : list (string * Z))
    (st st' : loop_state) :
  Forall (fun e => 2 <= snd e) debtors ->
  Forall (fun e => 2 <= snd e) creditors ->
  ledger_inv debtors creditors st ->
  loop_step debtors creditors st = Some st' ->
  ledger_inv debtors creditors st'.
Proof.
  intros HD HC (Hpaid & Hrecv & HrD & HrC) Hstep.
  destruct (loop_step_Some _ _ _ _ Hstep)
    as (debtor & owed & creditor & due & Hd & Hc & Htx & Hi & Hj).
  assert (Hm : 1 <= Z.min (current_debt st) (current_credit st) <= current_debt st
               /\ Z.min (current_debt st) (current_credit st) <= current_credit st).
  { unfold residual_ok in HrD, HrC. rewrite Hd in HrD. rewrite Hc in HrC. lia. }
  destruct Hm as [HmD HmC].
  destruct (advance_settled debtors HD _ _ _ _ _ _ _ Hd HrD HmD (eq_sym Hi))
    as [HsD HrD'].
  destruct (advance_settled creditors HC _ _ _ _ _ _ _ Hc HrC
              (conj (proj1 HmD) HmC) (eq_sym Hj)) as [HsC HrC'].
  repeat split; try assumption.
  - intros w. rewrite Htx, paid_snoc, HsD, Hpaid. reflexivity.
  - intros w. rewrite Htx, received_snoc, HsC, Hrecv. reflexivity.
Qed.

Lemma ledger_inv_initial (debtors creditors : list (string * Z)) :
  Forall (fun e => 2 <= snd e) debtors ->
  Forall (fun e => 2 <= snd e) creditors ->
  ledger_inv debtors creditors (initial_state debtors creditors).
Proof.
  intros HD HC. unfold ledger_inv, initial_state. cbn [i j current_debt
    current_credit transactions].
  repeat split.
  - intros w. symmetry. apply (settled_initial debtors HD w).
  - intros w. symmetry. apply (settled_initial creditors HC w).
  - apply (settled_initial debtors HD everyone).
  - apply (settled_initial creditors HC everyone).
Qed.

Lemma sorted_debtors_amounts (balances : dict) :
  Forall (fun e => 2 <= snd e) (sorted_debtors balances).
Proof.
  apply Forall_forall. intros [user amount] Hin.
  apply list_elem_of_In, sorted_debtors_In in Hin as (b & _ & Hlt & ->).
  cbn [snd]. lia.
Qed.

Lemma sorted_creditors_amounts (balances : dict) :
  Forall (fun e => 2 <= snd e) (sorted_creditors balances).
Proof.
  apply Forall_forall. intros [user amount] Hin.
  apply list_elem_of_In, sorted_creditors_In in Hin as [_ Hlt].
  cbn [snd]. lia.
Qed.


Lemma get_not_key (d : dict) (k : string) : ~ In k (keys d) -> get d k = None.
Proof.
  intros Hnot. destruct (get d k) as [v|] eqn:H; [|reflexivity].
  exfalso. apply Hnot. apply get_In in H.
  apply (in_map fst) in H. exact H.
Qed.











Lemma settled_participants_excluded_witness :
  let balances := [("A", 1001); ("B", -1000); ("C", -1)]%string in
  let settled_map := [("A", 1); ("B", -1); ("C", 0)]%string in
  (forall from_user to_user amount,
      In (from_user, to_user, amount) (simplify_debts balances) ->
      from_user <> "C"%string /\ to_user <> "C"%string)
  /\ simplify_debts settled_map = [].
Proof.
  intros balances settled_map. split.
  - assert (Hnd : NoDup (keys balances)).
    { apply (bool_decide_unpack _). vm_compute. exact I. }
    apply (proj1 (settled_participants_excluded balances Hnd) "C"%string (-1)).
    + right. right. left. reflexivity.
    + cbn. lia.
  - assert (Hnd : NoDup (keys settled_map)).
    { apply (bool_decide_unpack _). vm_compute. exact I. }
    apply (proj2 (settled_participants_excluded settled_map Hnd)).
    intros user balance [Heq|[Heq|[Heq|[]]]]; injection Heq as <- <-; lia.
Defined.

End SimplifierProofs.

(** * Further properties of the split engine *)

Module SplitEngineMore.

Import SplitEngine SplitEngineProofs.

(** ** Rounding *)

Lemma round_half_even_bounds (n : Z) (d : positive) :
  2 * Z.abs (round_half_even (n # d) * Z.pos d - n) <= Z.pos d
  /\ (2 * Z.abs (round_half_even (n # d) * Z.pos d - n) = Z.pos d ->
      Z.even (round_half_even (n # d)) = true).
Proof.
  unfold round_half_even. cbn [Qnum Qden].
  assert (Hpos : 0 < Z.pos d) by lia.
  pose proof (Z.div_mod n (Z.pos d) ltac:(lia)) as Hdm.
  pose proof (Z.mod_pos_bound n (Z.pos d) ltac:(lia)) as Hb.
  generalize dependent (n / Z.pos d).
  generalize dependent (n mod Z.pos d).
  generalize dependent (Z.pos d).
  intros m Hm r Hr f Hdm.
  assert (Hlow : f * m - n = - r) by (rewrite Hdm; ring).
  assert (Hhigh : (f + 1) * m - n = m - r) by (rewrite Hdm; ring).
  destruct (Z.compare_spec (2 * r) m) as [Hc|Hc|Hc].
  - destruct (Z.even f) eqn:He; rewrite ?Hlow, ?Hhigh.
    + split; [lia|]. intros _. exact He.
    + split; [lia|]. intros _. rewrite Z.even_add, He. reflexivity.
  - rewrite Hlow. split; lia.
  - rewrite Hhigh. split; lia.
Qed.

Lemma round_half_even_close (q : Q) :
  (Qabs (inject_Z (round_half_even q) - q) <= 1 # 2)%Q
  /\ ((Qabs (inject_Z (round_half_even q) - q) == 1 # 2)%Q ->
      Z.even (round_half_even q) = true).
Proof.
  destruct q as [n d].
  destruct (round_half_even_bounds n d) as [Hle Htie].
  set (z := round_half_even (n # d)) in *.
  assert (Hdiff : (inject_Z z - (n # d) == (z * Z.pos d - n) # d)%Q).
  { unfold Qeq, Qminus, Qplus, Qopp, inject_Z. cbn [Qnum Qden].
    rewrite Pos.mul_1_l. ring. }
  split.
  - rewrite Hdiff. unfold Qle, Qabs. cbn [Qnum Qden]. lia.
  - intros H. apply Htie. rewrite Hdiff in H.
    unfold Qeq, Qabs in H. cbn [Qnum Qden] in H. lia.
Qed.



(** ** Equal split *)

Lemma adjust_prefix (adjustment base : Z) (count : nat) (done_ : list Z)
    (rest : nat) :
  (count <= rest)%nat ->
  adjust (seq (length done_) count) adjustment (done_ ++ repeat base rest)
  = Ok (done_ ++ repeat (base + adjustment) count ++ repeat base (rest - count)).
Proof.
  revert done_ rest. induction count as [|count IH]; intros done_ rest Hle.
  - cbn [seq adjust repeat app]. rewrite Nat.sub_0_r. reflexivity.
  - destruct rest as [|rest]; [lia|].
    cbn [seq adjust repeat]. unfold add_at.
    rewrite list_lookup_middle by reflexivity. cbn [bind].
    rewrite insert_app_r_alt by lia. rewrite Nat.sub_diag.
    change (<[0%nat := base + adjustment]> (base :: repeat base rest))
      with ((base + adjustment) :: repeat base rest).
    specialize (IH (done_ ++ [base + adjustment]) rest ltac:(lia)).
    rewrite length_app, <- !app_assoc in IH. cbn [length app] in IH.
    rewrite Nat.add_1_r in IH. rewrite IH. reflexivity.
Qed.

Lemma split_equal_layout (amount n : Z) :
  0 < amount -> 0 < n ->
  let base := equal_base amount n in
  let diff := amount - n * base in
  2 * Z.abs diff <= n
  /\ split_equal amount n
     = Ok (repeat (base + Z.sgn diff) (Z.to_nat (Z.abs diff))
           ++ repeat base (Z.to_nat (n - Z.abs diff))).
Proof.
  intros Ha Hn base diff.
  pose proof (equal_base_close amount n Hn) as Hclose. fold base diff in Hclose.
  split; [exact Hclose|].
  unfold split_equal.
  destruct (Z.leb_spec n 0); [lia|].
  destruct (Z.leb_spec amount 0); [lia|].
  fold base. rewrite sum_repeat, Z2Nat.id by lia. fold diff.
  destruct (Z.eqb_spec diff 0) as [Hz|Hnz]; cbn [negb].
  - rewrite Hz. cbn [Z.abs Z.to_nat repeat app]. rewrite Z.sub_0_r. reflexivity.
  - pose proof (adjust_prefix (if 0 <? diff then 1 else -1) base
                  (Z.to_nat (Z.abs diff)) [] (Z.to_nat n) ltac:(lia)) as Hadj.
    cbn [length app] in Hadj. rewrite Hadj.
    replace (Z.to_nat n - Z.to_nat (Z.abs diff))%nat
      with (Z.to_nat (n - Z.abs diff)) by lia.
    replace (if 0 <? diff then 1 else -1) with (Z.sgn diff)
      by (destruct (Z.ltb_spec 0 diff); lia).
    reflexivity.
Qed.





Lemma equal_base_nonneg (amount n : Z) :
  0 < amount -> 0 < n ->
  0 <= equal_base amount n
  /\ (amount - n * equal_base amount n < 0 -> 1 <= equal_base amount n).
Proof.
  intros Ha Hn. pose proof (equal_base_close amount n Hn) as Hclose.
  split; [nia|]. intros Hneg. nia.
Qed.

(** X4. An equal split of a positive amount is fair and has no negative
    share: every share is at least zero, and any two shares differ by at
    most one cent. *)
Theorem split_equal_fair (amount n : Z) (l : list Z) :
  split_equal amount n = Ok l ->
  (forall x, In x l -> 0 <= x)
  /\ (forall x y, In x l -> In y l -> Z.abs (x - y) <= 1).
Proof.
  intros Hl.
  assert (Hdom : 0 < n /\ 0 < amount).
  { unfold split_equal in Hl.
    destruct (Z.leb_spec n 0); [discriminate Hl|].
    destruct (Z.leb_spec amount 0); [discriminate Hl|]. lia. }
  destruct Hdom as [Hn Ha].
  destruct (split_equal_layout amount n Ha Hn) as [_ Hshape].
  destruct (equal_base_nonneg amount n Ha Hn) as [Hbase Hneg].
  rewrite Hshape in Hl. injection Hl as <-.
  set (base := equal_base amount n) in *.
  set (diff := amount - n * base) in *.
  assert (Hmem : forall x, In x (repeat (base + Z.sgn diff) (Z.to_nat (Z.abs diff))
                                 ++ repeat base (Z.to_nat (n - Z.abs diff))) ->
                           x = base \/ (x = base + Z.sgn diff /\ diff <> 0)).
  { intros x Hin. apply in_app_or in Hin as [Hin|Hin].
    - right. split; [exact (repeat_spec _ _ _ Hin)|].
      intros Hz. rewrite Hz in Hin. destruct Hin.
    - left. exact (repeat_spec _ _ _ Hin). }
  split.
  - intros x Hx. destruct (Hmem x Hx) as [->|[-> Hnz]]; [exact Hbase|].
    destruct (Z.lt_trichotomy diff 0) as [Hlt|[Hz|Hgt]]; [|lia|lia].
    specialize (Hneg Hlt). lia.
  - intros x y Hx Hy.
    destruct (Hmem x Hx) as [->|[-> _]]; destruct (Hmem y Hy) as [->|[-> _]]; lia.
Qed.

Lemma split_equal_fair_witness :
  (forall x, In x [334; 333; 333] -> 0 <= x)
  /\ (forall x y, In x [334; 333; 333] -> In y [334; 333; 333] -> Z.abs (x - y) <= 1).
Proof.
  apply (split_equal_fair 1000 3 [334; 333; 333]). reflexivity.
Defined.



(** ** Percentage split *)



Lemma max_cons_Some (x : Z) (l : list Z) : exists m, Py.max (x :: l) = Some m.
Proof.
  cbn [Py.max]. destruct (Py.max l); eexists; reflexivity.
Qed.

Lemma index_In (x : Z) (l : list Z) :
  In x l -> exists k, index x l = Some k.
Proof.
  induction l as [|y l IH]; cbn [index]; intros Hin.
  - destruct Hin.
  - destruct (Z.eqb_spec y x) as [_|Hne]; [eexists; reflexivity|].
    destruct Hin as [Heq|Hin]; [contradiction|].
    destruct (IH Hin) as [k ->]. eexists; reflexivity.
Qed.

(** What a successful percentage split returns: the rounded shares, with
    the difference to the total added to the first maximum. *)
Lemma split_percentage_Ok (amount : Z) (percentages : list Q) (l : list Z) :
  split_percentage amount percentages = Ok l ->
  let splits := map (percentage_share amount) percentages in
  sum l = amount
  /\ length l = length percentages
  /\ exists k m, splits !! k = Some m
                 /\ (forall x, In x splits -> x <= m)
                 /\ l = <[k := m + (amount - sum splits)]> splits.
Proof.
  unfold split_percentage. intros H.
  destruct (Qlt_le_dec _ _) as [|Htotal]; [discriminate H|].
  destruct (percentage_shares amount percentages []) as [splits0|] eqn:Hs;
    [|discriminate H].
  apply percentage_shares_ok in Hs. cbn [app] in Hs. subst splits0.
  cbn [bind] in H. cbn zeta.
  set (splits := map (percentage_share amount) percentages) in *.
  assert (Hlen : length splits = length percentages) by apply length_map.
  destruct (Z.eqb_spec (amount - sum splits) 0) as [Hz|Hnz]; cbn [negb] in H.
  - injection H as <-. split; [lia|]. split; [exact Hlen|].
    destruct percentages as [|pct percentages].
    + exfalso. vm_compute in Htotal. apply Htotal. reflexivity.
    + destruct (max_cons_Some (percentage_share amount pct)
                  (map (percentage_share amount) percentages)) as [m Hm].
      fold splits in Hm.
      destruct (max_upper _ _ Hm) as [Hin Hle].
      destruct (index_In _ _ Hin) as [k Hk].
      destruct (index_first _ _ _ Hk) as [Hlook _].
      exists k, m. split; [exact Hlook|]. split; [exact Hle|].
      rewrite Hz, Z.add_0_r. symmetry. apply list_insert_id. exact Hlook.
  - destruct (Py.max splits) as [m|] eqn:Hm; [|discriminate H].
    destruct (index m splits) as [k|] eqn:Hi; [|discriminate H].
    destruct (max_upper _ _ Hm) as [_ Hle].
    destruct (index_first _ _ _ Hi) as [Hk _].
    unfold add_at in H. rewrite Hk in H. injection H as <-.
    split; [rewrite (sum_insert _ _ m) by exact Hk; lia|].
    split; [rewrite length_insert; exact Hlen|].
    exists k, m. split; [exact Hk|]. split; [exact Hle|reflexivity].
Qed.




(** ** Percentage shares are not negative for realistic totals *)

Lemma rhe_upper (q : Q) : (inject_Z (round_half_even q) <= q + (1 # 2))%Q.
Proof.
  pose proof (proj1 (round_half_even_close q)) as H.
  apply Qabs_Qle_condition in H. destruct H as [_ H]. lra.
Qed.

Lemma rhe_nonneg (q : Q) : (0 <= q)%Q -> 0 <= round_half_even q.
Proof.
  destruct q as [n d]. unfold Qle. cbn [Qnum Qden]. intros H.
  unfold round_half_even. cbn [Qnum Qden].
  assert (0 <= n) by lia.
  assert (0 <= n / Z.pos d) by (apply Z.div_pos; lia).
  destruct (_ ?= _); [destruct (Z.even _)| |]; lia.
Qed.

Lemma sumQ_shift (l : list Q) (a : Q) : (fold_left Qplus l a == a + fold_left Qplus l (0#1))%Q.
Proof.
  revert a. induction l as [|x l IH]; intros a; cbn [fold_left].
  - lra.
  - rewrite (IH (a + x)%Q), (IH (0 + x)%Q). lra.
Qed.

Lemma sumQ_cons (x : Q) (l : list Q) : (sumQ (x :: l) == x + sumQ l)%Q.
Proof. unfold sumQ. cbn [fold_left]. rewrite sumQ_shift. lra. Qed.

Lemma shares_upper (amount : Z) (percentages : list Q) :
  (inject_Z (sum (map (percentage_share amount) percentages))
   <= inject_Z amount * sumQ percentages / inject_Z 100
      + inject_Z (Z.of_nat (length percentages)) * (1 # 2))%Q.
Proof.
  induction percentages as [|p l IH].
  - change (sum (map (percentage_share amount) [])) with 0.
    change (sumQ []) with (0 # 1)%Q.
    change (inject_Z (Z.of_nat (length (@nil Q)))) with (0 # 1)%Q.
    change (inject_Z 100) with (100 # 1)%Q. change (inject_Z 0) with (0 # 1)%Q.
    assert (H : (inject_Z amount * (0 # 1) / (100 # 1) == 0)%Q) by field.
    rewrite H. lra.
  - cbn [map length]. rewrite sum_cons, Nat2Z.inj_succ, sumQ_cons.
    unfold Z.succ. rewrite !inject_Z_plus.
    pose proof (rhe_upper (inject_Z amount * p / inject_Z 100)) as Hp.
    fold (percentage_share amount p) in Hp.
    assert (Hsplit : (inject_Z amount * (p + sumQ l) / inject_Z 100
              == inject_Z amount * p / inject_Z 100
                 + inject_Z amount * sumQ l / inject_Z 100)%Q) by (field).
    rewrite Hsplit. clear Hsplit. change (inject_Z 1) with (1 # 1)%Q.
    generalize dependent (inject_Z amount * p / inject_Z 100)%Q.
    generalize dependent (inject_Z amount * sumQ l / inject_Z 100)%Q.
    generalize (inject_Z (Z.of_nat (length l))).
    generalize (inject_Z (sum (map (percentage_share amount) l))).
    generalize (inject_Z (percentage_share amount p)).
    intros s1 s2 n t2 IH t1 Hp. lra.
Qed.


Lemma percentage_shares_inputs (amount : Z) (percentages : list Q)
    (acc splits : list Z) :
  percentage_shares amount percentages acc = Ok splits ->
  Forall (fun pct => (0 <= pct)%Q) percentages.
Proof.
  revert acc. induction percentages as [|pct l IH]; intros acc H;
    cbn [percentage_shares] in H.
  - apply Forall_nil_2.
  - destruct (Qlt_le_dec pct (0 # 1)) as [|Hpos]; [discriminate H|].
    apply Forall_cons_2; [exact Hpos|exact (IH _ H)].
Qed.

Lemma split_percentage_inputs (amount : Z) (percentages : list Q) (l : list Z) :
  split_percentage amount percentages = Ok l ->
  (Qabs (sumQ percentages - inject_Z 100) <= 1 # 100)%Q
  /\ Forall (fun pct => (0 <= pct)%Q) percentages.
Proof.
  unfold split_percentage. intros H.
  destruct (Qlt_le_dec _ _) as [|Htotal]; [discriminate H|].
  split; [exact Htotal|].
  destruct (percentage_shares amount percentages []) as [splits|] eqn:Hs;
    [|discriminate H].
  exact (percentage_shares_inputs _ _ _ _ Hs).
Qed.

Lemma percentage_share_nonneg (amount : Z) (pct : Q) :
  0 <= amount -> (0 <= pct)%Q -> 0 <= percentage_share amount pct.
Proof.
  intros Ha Hp. apply rhe_nonneg.
  destruct pct as [n d]. unfold Qle in *. cbn in *. nia.
Qed.

Lemma sum_le_max (l : list Z) (m : Z) :
  (forall x, In x l -> x <= m) -> sum l <= Z.of_nat (length l) * m.
Proof.
  induction l as [|x l IH]; intros H.
  - cbn. lia.
  - rewrite sum_cons. cbn [length]. rewrite Nat2Z.inj_succ.
    pose proof (H x (or_introl eq_refl)).
    pose proof (IH (fun y Hy => H y (or_intror Hy))). nia.
Qed.

Lemma In_insert (l : list Z) (k : nat) (v x : Z) :
  In x (<[k := v]> l) -> x = v \/ In x l.
Proof.
  revert k. induction l as [|y l IH]; intros k; [intros []|].
  destruct k as [|k]; cbn.
  - intros [<-|H]; tauto.
  - intros [<-|H]; [tauto|]. destruct (IH k H); tauto.
Qed.

Lemma shares_total_bound (amount : Z) (percentages : list Q) :
  0 <= amount ->
  (Qabs (sumQ percentages - inject_Z 100) <= 1 # 100)%Q ->
  20000 * sum (map (percentage_share amount) percentages)
  <= 20002 * amount + 10000 * Z.of_nat (length percentages).
Proof.
  intros Ha Htotal.
  pose proof (shares_upper amount percentages) as Hup.
  apply Qabs_Qle_condition in Htotal. destruct Htotal as [_ Htotal].
  assert (Hle : (sumQ percentages <= 10001 # 100)%Q).
  { change (inject_Z 100) with (100 # 1)%Q in Htotal. lra. }
  assert (Hscale : (inject_Z amount * sumQ percentages / inject_Z 100
                    <= inject_Z amount * (10001 # 100) / inject_Z 100)%Q).
  { unfold Qdiv. apply Qmult_le_compat_r; [|vm_compute; discriminate].
    rewrite (Qmult_comm (inject_Z amount) (sumQ percentages)),
      (Qmult_comm (inject_Z amount) (10001 # 100)).
    apply Qmult_le_compat_r; [exact Hle|].
    unfold Qle. cbn. lia. }
  assert (H : (inject_Z (sum (map (percentage_share amount) percentages))
               <= inject_Z amount * (10001 # 100) / inject_Z 100
                  + inject_Z (Z.of_nat (length percentages)) * (1 # 2))%Q).
  { eapply Qle_trans; [exact Hup|]. apply Qplus_le_l. exact Hscale. }
  unfold Qle in H. cbn in H. lia.
Qed.

(** X7. With at most four percentages (the largest group that the
    expense schema admits) and a total of at least 0.03, a percentage split
    that returns has no negative share: the rounding difference taken from
    the largest share never exceeds it. *)
Theorem percentage_shares_nonnegative (amount : Z) (percentages : list Q)
    (l : list Z) :
  split_percentage amount percentages = Ok l ->
  (length percentages <= 4)%nat -> 3 <= amount ->
  forall x, In x l -> 0 <= x.
Proof.
  intros Hl Hn Ha.
  destruct (split_percentage_inputs _ _ _ Hl) as [Htotal Hpos].
  destruct (split_percentage_Ok _ _ _ Hl) as (_ & _ & k & m & Hk & Hmax & ->).
  set (splits := map (percentage_share amount) percentages) in *.
  assert (Hshares : forall x, In x splits -> 0 <= x).
  { intros x Hx. apply in_map_iff in Hx as (p & <- & Hp).
    apply percentage_share_nonneg; [lia|].
    apply list_elem_of_In in Hp. exact (proj1 (Forall_forall _ _) Hpos p Hp). }
  pose proof (shares_total_bound amount percentages ltac:(lia) Htotal) as Hbound.
  fold splits in Hbound.
  pose proof (sum_le_max splits m Hmax) as Hsum.
  unfold splits in Hsum at 2. rewrite length_map in Hsum.
  assert (Hnonempty : (0 < length percentages)%nat).
  { apply lookup_lt_Some in Hk. unfold splits in Hk.
    rewrite length_map in Hk. lia. }
  assert (Hm : 0 <= m).
  { apply Hshares, list_elem_of_In. eapply list_elem_of_lookup_2. exact Hk. }
  intros x Hx. apply In_insert in Hx as [->|Hx]; [|exact (Hshares x Hx)].
  destruct (length percentages) as [|[|[|[|[|n]]]]]; lia.
Qed.

Lemma percentage_shares_nonnegative_witness :
  split_percentage 10000 [33335 # 1000; 33335 # 1000; 3333 # 100]%Q
  = Ok [3333; 3334; 3333]
  /\ 0 <= 3333 /\ 0 <= 3334.
Proof.
  assert (H : forall x, In x [3333; 3334; 3333] -> 0 <= x).
  { apply (percentage_shares_nonnegative 10000
             [33335 # 1000; 33335 # 1000; 3333 # 100]%Q [3333; 3334; 3333]).
    - reflexivity.
    - cbn. lia.
    - lia. }
  split; [reflexivity|]. split; apply H; cbn; tauto.
Defined.

(** Below that total a share can be negative: four percentages of 25.0025
    pass the check on the total, each share of 0.02 rounds up to 0.01, and
    the first one pays for the difference. *)
Example percentage_share_negative :
  split_percentage 2 [250025 # 10000; 250025 # 10000; 250025 # 10000; 250025 # 10000]%Q
  = Ok [-1; 1; 1; 1].
Proof. reflexivity. Qed.

End SplitEngineMore.

(** * Further properties of the dispatch and of its caller *)

Module DispatchMore.

Import SplitEngine SplitEngineProofs SplitEngineMore DebtSimplifier
  AggregatorProofs.

Lemma set_fresh (d : dict) (k : string) (v : Z) :
  ~ In k (keys d) -> set d k v = d ++ [(k, v)].
Proof.
  unfold keys. induction d as [|[k' v'] d IH]; cbn [set map fst app]; intros Hk.
  - reflexivity.
  - destruct (String.eqb_spec k' k) as [->|Hne].
    + exfalso. apply Hk. left. reflexivity.
    + rewrite IH; [reflexivity|]. intros Hin. apply Hk. right. exact Hin.
Qed.








(** X8. [create_splits] rejects an empty list of participants before it
    looks at the policy, and under the Custom and the Percentage policy it
    rejects parameters that are absent or whose number differs from the
    number of participants (an empty list of parameters included) before
    any amount is computed. *)
Theorem create_splits_rejects (amount : Z) (participant_ids : list string)
    (custom_amounts : option (list Z)) (percentages : option (list Q)) :
  (participant_ids = [] ->
   forall split_type,
     create_splits amount split_type participant_ids custom_amounts percentages
     = Err (InvalidInput "At least one participant required"))
  /\ (participant_ids <> [] ->
      (forall l, custom_amounts = Some l -> length l <> length participant_ids) ->
      create_splits amount CUSTOM participant_ids custom_amounts percentages
      = Err (MissingParameters
               "Custom amounts must be provided for all participants"))
  /\ (participant_ids <> [] ->
      (forall l, percentages = Some l -> length l <> length participant_ids) ->
      create_splits amount PERCENTAGE participant_ids custom_amounts percentages
      = Err (MissingParameters
               "Percentages must be provided for all participants")).
Proof.
  assert (Hmiss : forall (A : Type) (o : option (list A)),
             (forall l, o = Some l -> length l <> length participant_ids) ->
             missing o (length participant_ids) = true).
  { intros A o Ho. unfold missing. destruct o as [[|x l]|]; try reflexivity.
    apply negb_true_iff, Nat.eqb_neq. exact (Ho _ eq_refl). }
  split; [|split].
  - intros -> split_type. reflexivity.
  - intros Hne Hlen. unfold create_splits.
    destruct (Nat.eqb_spec (length participant_ids) 0) as [Hz|_].
    { destruct participant_ids; [contradiction|discriminate Hz]. }
    rewrite (Hmiss _ _ Hlen). reflexivity.
  - intros Hne Hlen. unfold create_splits.
    destruct (Nat.eqb_spec (length participant_ids) 0) as [Hz|_].
    { destruct participant_ids; [contradiction|discriminate Hz]. }
    rewrite (Hmiss _ _ Hlen). reflexivity.
Qed.

Lemma create_splits_rejects_witness :
  create_splits 1000 EQUAL [] None None
  = Err (InvalidInput "At least one participant required")
  /\ create_splits 1000 CUSTOM ["u1"; "u2"]%string (Some [1000]) None
     = Err (MissingParameters
              "Custom amounts must be provided for all participants")
  /\ create_splits 1000 PERCENTAGE ["u1"; "u2"]%string None None
     = Err (MissingParameters
              "Percentages must be provided for all participants").
Proof.
  split; [|split].
  - apply (proj1 (create_splits_rejects 1000 [] None None)). reflexivity.
  - apply (proj1 (proj2 (create_splits_rejects 1000 ["u1"; "u2"]%string
                           (Some [1000]) None))).
    + discriminate.
    + intros l Hl. injection Hl as <-. cbn. lia.
  - apply (proj2 (proj2 (create_splits_rejects 1000 ["u1"; "u2"]%string
                           None None))).
    + discriminate.
    + intros l Hl. discriminate Hl.
Defined.







(** A participant listed twice gets one split line, the later amount, so the
    split lines no longer add up to the expense. *)
Example create_splits_repeated_participant :
  create_splits 1000 EQUAL ["u1"; "u1"]%string None None
  = Ok [("u1"%string, 500)].
Proof. reflexivity. Qed.

End DispatchMore.

(** * Further properties of the balance aggregator *)

Module AggregatorMore.

Import DebtSimplifier Accounting Ledger SimplifierProofs.

Lemma keys_set (d : dict) (k : string) (v : Z) :
  (In k (keys d) -> keys (set d k v) = keys d)
  /\ (~ In k (keys d) -> keys (set d k v) = keys d ++ [k]).
Proof.
  split.
  - intros Hin. destruct (get_is_Some _ _ Hin) as [v0 Hv0].
    eapply keys_set_present. exact Hv0.
  - intros Hnot. rewrite (DispatchMore.set_fresh _ _ _ Hnot).
    unfold keys. rewrite map_app. reflexivity.
Qed.

Lemma In_dec_string (k : string) (l : list string) : In k l \/ ~ In k l.
Proof.
  destruct (in_dec String.string_dec k l); [left|right]; assumption.
Qed.

Lemma keys_credit (balances : dict) (k : string) (x : Z) (user : string) :
  In user (keys (credit balances k x)) <-> user = k \/ In user (keys balances).
Proof.
  unfold credit. destruct (keys_set balances k (get_default balances k 0 + x))
    as [Hpresent Hfresh].
  destruct (In_dec_string k (keys balances)) as [Hin|Hnot].
  - rewrite (Hpresent Hin). split; [tauto|]. intros [->|H]; assumption.
  - rewrite (Hfresh Hnot), in_app_iff. cbn [In]. split.
    + intros [H|[<-|[]]]; tauto.
    + intros [->|H]; tauto.
Qed.

Lemma NoDup_credit (balances : dict) (k : string) (x : Z) :
  NoDup (keys balances) -> NoDup (keys (credit balances k x)).
Proof.
  intros Hnd. unfold credit.
  destruct (keys_set balances k (get_default balances k 0 + x))
    as [Hpresent Hfresh].
  destruct (In_dec_string k (keys balances)) as [Hin|Hnot].
  - rewrite (Hpresent Hin). exact Hnd.
  - rewrite (Hfresh Hnot). apply NoDup_app. split; [exact Hnd|].
    split; [|apply NoDup_singleton].
    intros y Hy Hy'. apply list_elem_of_In in Hy.
    apply list_elem_of_In in Hy'. destruct Hy' as [<-|[]]. contradiction.
Qed.

Lemma get_default_credit (balances : dict) (k : string) (x : Z) (user : string) :
  get_default (credit balances k x) user 0
  = get_default balances user 0 + only user k * x.
Proof.
  unfold credit, get_default, only. rewrite get_set.
  destruct (String.eqb_spec k user) as [->|Hne]; lia.
Qed.

Lemma tracks_credit (balances : dict) (user : string) (value : Z)
    (mentioned : list string) (k : string) (x : Z) :
  tracks balances user value mentioned ->
  tracks (credit balances k x) user (value + only user k * x) (mentioned ++ [k]).
Proof.
  intros (Hval & Hnd & Hkeys). split; [|split].
  - rewrite get_default_credit, Hval. reflexivity.
  - apply NoDup_credit. exact Hnd.
  - rewrite keys_credit, in_app_iff, Hkeys. cbn [In]. split.
    + intros [->|H]; tauto.
    + intros [H|[<-|[]]]; tauto.
Qed.

Lemma tracks_ext (balances : dict) (user : string) (value value' : Z)
    (mentioned mentioned' : list string) :
  tracks balances user value mentioned ->
  value = value' ->
  (In user mentioned <-> In user mentioned') ->
  tracks balances user value' mentioned'.
Proof.
  intros (Hval & Hnd & Hkeys) <- Hiff. split; [exact Hval|].
  split; [exact Hnd|]. rewrite Hkeys. exact Hiff.
Qed.

Lemma tracks_debits (splits : list (string * Z)) (balances : dict)
    (user : string) (value : Z) (mentioned : list string) :
  tracks balances user value mentioned ->
  tracks (fold_left
            (fun b '(user_id, split_amount) => credit b user_id (- split_amount))
            splits balances)
    user (value - weighted (only user) splits) (mentioned ++ map fst splits).
Proof.
  revert balances value mentioned.
  induction splits as [|[k x] splits IH]; intros balances value mentioned H;
    cbn [fold_left map fst].
  - rewrite app_nil_r, weighted_nil, Z.sub_0_r. exact H.
  - eapply tracks_ext.
    + apply IH. apply tracks_credit. exact H.
    + rewrite weighted_cons. ring.
    + rewrite <- app_assoc. reflexivity.
Qed.

Lemma tracks_expense (balances : dict) (e : expense) (user : string)
    (value : Z) (mentioned : list string) :
  tracks balances user value mentioned ->
  tracks (process_expense balances e) user
    (value + only user (e_paid_by e) * e_amount e
     - weighted (only user) (e_splits e))
    (mentioned ++ expense_parties e).
Proof.
  intros H. unfold process_expense, expense_parties.
  eapply tracks_ext.
  - apply tracks_debits. apply tracks_credit. exact H.
  - reflexivity.
  - rewrite <- app_assoc. reflexivity.
Qed.

Lemma tracks_settlement (balances : dict) (s : settlement) (user : string)
    (value : Z) (mentioned : list string) :
  tracks balances user value mentioned ->
  tracks (process_settlement balances s) user
    (value + only user (s_paid_to s) * s_amount s
     - only user (s_paid_by s) * s_amount s)
    (mentioned ++ settlement_parties s).
Proof.
  intros H. unfold process_settlement, settlement_parties.
  eapply tracks_ext.
  - apply tracks_credit. apply tracks_credit. exact H.
  - ring.
  - rewrite <- app_assoc. reflexivity.
Qed.

Lemma tracks_expenses (expenses : list expense) (balances : dict)
    (user : string) (value : Z) (mentioned : list string) :
  tracks balances user value mentioned ->
  tracks (fold_left process_expense expenses balances) user
    (value + amount_paid user expenses - amount_owed user expenses)
    (mentioned ++ concat (map expense_parties expenses)).
Proof.
  revert balances value mentioned.
  induction expenses as [|e expenses IH]; intros balances value mentioned H;
    cbn [fold_left map concat].
  - rewrite app_nil_r. eapply tracks_ext; [exact H| |reflexivity].
    unfold amount_paid, amount_owed. cbn [map]. rewrite sum_nil. ring.
  - eapply tracks_ext.
    + apply IH. apply tracks_expense. exact H.
    + unfold amount_paid, amount_owed. cbn [map]. rewrite !sum_cons. ring.
    + rewrite <- app_assoc. reflexivity.
Qed.

Lemma tracks_settlements (settlements : list settlement) (balances : dict)
    (user : string) (value : Z) (mentioned : list string) :
  tracks balances user value mentioned ->
  tracks (fold_left process_settlement settlements balances) user
    (value + settlements_received user settlements
     - settlements_made user settlements)
    (mentioned ++ concat (map settlement_parties settlements)).
Proof.
  revert balances value mentioned.
  induction settlements as [|s settlements IH]; intros balances value mentioned H;
    cbn [fold_left map concat].
  - rewrite app_nil_r. eapply tracks_ext; [exact H| |reflexivity].
    unfold settlements_received, settlements_made. cbn [map]. rewrite sum_nil. ring.
  - eapply tracks_ext.
    + apply IH. apply tracks_settlement. exact H.
    + unfold settlements_received, settlements_made. cbn [map].
      rewrite !sum_cons. ring.
    + rewrite <- app_assoc. reflexivity.
Qed.

Lemma tracks_group (expenses : list expense) (settlements : list settlement)
    (user : string) :
  tracks (calculate_group_balances expenses settlements) user
    (amount_paid user expenses - amount_owed user expenses
     + settlements_received user settlements
     - settlements_made user settlements)
    (parties expenses settlements).
Proof.
  unfold calculate_group_balances, parties.
  eapply tracks_ext.
  - apply tracks_settlements. apply (tracks_expenses expenses [] user 0 []).
    split; [reflexivity|]. split; [apply NoDup_nil_2|reflexivity].
  - ring.
  - reflexivity.
Qed.




(** X13. The map returned by [calculate_group_balances] is a dict whose
    keys are exactly the participants named in the records: each of them
    once, nobody else. *)
Theorem balance_keys (expenses : list expense) (settlements : list settlement) :
  NoDup (keys (calculate_group_balances expenses settlements))
  /\ forall user,
       In user (keys (calculate_group_balances expenses settlements))
       <-> In user (parties expenses settlements).
Proof.
  split.
  - exact (proj1 (proj2 (tracks_group expenses settlements ""%string))).
  - intros user. exact (proj2 (proj2 (tracks_group expenses settlements user))).
Qed.






End AggregatorMore.

(** * Further properties of the debt simplifier *)

Module SimplifierMore.

Import DebtSimplifier Accounting Order SimplifierProofs.

(** ** The sort *)

Lemma insert_desc_descending (x : string * Z) (l : list (string * Z)) :
  descending l -> descending (insert_desc x l).
Proof.
  induction l as [|y l IH]; cbn [insert_desc descending].
  - intros _. split; [apply Forall_nil_2|exact I].
  - intros [Hy Hl]. destruct (Z.ltb_spec (snd x) (snd y)) as [Hlt|Hge].
    + cbn [descending]. split; [|exact (IH Hl)].
      rewrite insert_desc_perm. apply Forall_cons_2; [lia|exact Hy].
    + cbn [descending]. split; [|split; assumption].
      apply Forall_cons_2; [lia|].
      eapply Forall_impl; [exact Hy|]. cbn beta. intros z Hz. lia.
Qed.

Lemma sort_desc_descending (l : list (string * Z)) : descending (sort_desc l).
Proof.
  induction l as [|x l IH]; cbn [sort_desc].
  - exact I.
  - apply insert_desc_descending, IH.
Qed.

Lemma descending_lookup (l : list (string * Z)) (k k' : nat)
    (x y : string * Z) :
  descending l -> (k < k')%nat ->
  l !! k = Some x -> l !! k' = Some y -> snd y <= snd x.
Proof.
  revert k k'. induction l as [|z l IH]; intros k k' Hdesc Hlt Hx Hy.
  - discriminate Hx.
  - destruct Hdesc as [Hz Hl]. destruct k' as [|k']; [lia|].
    cbn in Hy. destruct k as [|k].
    + cbn in Hx. injection Hx as <-.
      exact (Forall_lookup_1 _ _ _ _ Hz Hy).
    + cbn in Hx. apply (IH k k' Hl ltac:(lia) Hx Hy).
Qed.

Lemma with_amount_insert (a : Z) (x : string * Z) (l : list (string * Z)) :
  with_amount a (insert_desc x l) = with_amount a (x :: l).
Proof.
  unfold with_amount. induction l as [|y l IH]; cbn [insert_desc].
  - reflexivity.
  - destruct (Z.ltb_spec (snd x) (snd y)) as [Hlt|Hge]; [|reflexivity].
    cbn [List.filter] in *. rewrite IH.
    destruct (Z.eqb_spec (snd y) a) as [Hy|Hy];
      destruct (Z.eqb_spec (snd x) a) as [Hx|Hx]; try reflexivity.
    lia.
Qed.

(** X16. The sort used by [simplify_debts] keeps the entries, puts them in
    descending order of amount, and is stable: entries with the same amount
    stay in the order in which the map lists them. *)
Theorem sort_desc_stable (l : list (string * Z)) :
  Permutation (sort_desc l) l
  /\ (forall k k' x y,
        (k < k')%nat -> sort_desc l !! k = Some x -> sort_desc l !! k' = Some y ->
        snd y <= snd x)
  /\ (forall a, with_amount a (sort_desc l) = with_amount a l).
Proof.
  split; [apply sort_desc_perm|]. split.
  - intros k k' x y. apply descending_lookup, sort_desc_descending.
  - intros a. induction l as [|x l IH]; cbn [sort_desc]; [reflexivity|].
    rewrite with_amount_insert. unfold with_amount in *. cbn [List.filter].
    rewrite IH. reflexivity.
Qed.

Lemma sort_desc_stable_witness :
  let l := [("a", 300); ("b", 500); ("d", 300)]%string in
  snd ("d"%string, 300) <= snd ("a"%string, 300)
  /\ with_amount 300 (sort_desc l) = with_amount 300 l.
Proof.
  intros l. split.
  - apply (proj1 (proj2 (sort_desc_stable l)) 1%nat 2%nat); [lia| |]; reflexivity.
  - apply (proj2 (proj2 (sort_desc_stable l))).
Defined.

(** ** The final state of the loop *)



Lemma simplify_debts_final (balances : dict) :
  let debtors := sorted_debtors balances in
  let creditors := sorted_creditors balances in
  exists st,
    simplify_debts balances = transactions st
    /\ ledger_inv debtors creditors st
    /\ (debtors !! i st = None \/ creditors !! j st = None)
    /\ forall from_user to_user amount,
         In (from_user, to_user, amount) (transactions st) -> 1 <= amount.
Proof.
  intros debtors creditors.
  pose proof (sorted_debtors_amounts balances) as HD.
  pose proof (sorted_creditors_amounts balances) as HC.
  destruct (simplify_debts_invariant balances
              (fun st => ledger_inv debtors creditors st
                         /\ forall f t a, In (f, t, a) (transactions st) -> 1 <= a))
    as (st & _ & Hres & [Hledger Hamounts] & Hnone).
  { split; [apply ledger_inv_initial; assumption|]. intros f t a []. }
  { intros st st' [Hledger Hamounts] Hstep.
    split; [eapply ledger_inv_step; eassumption|].
    destruct (loop_step_Some _ _ _ _ Hstep)
      as (debtor & owed & creditor & due & Hd & Hc & Htx & _).
    destruct Hledger as (_ & _ & HrD & HrC).
    unfold residual_ok in HrD, HrC. fold debtors in Hd. fold creditors in Hc.
    rewrite Hd in HrD. rewrite Hc in HrC.
    intros f t a Hin. rewrite Htx in Hin.
    apply in_app_or in Hin as [Hin|[Heq|[]]]; [exact (Hamounts f t a Hin)|].
    injection Heq as _ _ <-. lia. }
  exists st. split; [exact Hres|]. split; [exact Hledger|].
  split; [|exact Hamounts].
  apply loop_step_None in Hnone.
  destruct (Nat.lt_ge_cases (i st) (length debtors)) as [Hi|Hi];
    [|left; apply lookup_ge_None; exact Hi].
  destruct (Nat.lt_ge_cases (j st) (length creditors)) as [Hj|Hj];
    [|right; apply lookup_ge_None; exact Hj].
  exfalso. apply Hnone. split; assumption.
Qed.

(** X17. Every instruction of [simplify_debts] carries an amount of at
    least one cent: no instruction is empty or negative. *)
Theorem instruction_amounts_positive (balances : dict)
    (from_user to_user : string) (amount : Z) :
  In (from_user, to_user, amount) (simplify_debts balances) -> 1 <= amount.
Proof.
  destruct (simplify_debts_final balances) as (st & -> & _ & _ & Hamounts).
  apply Hamounts.
Qed.

Lemma instruction_amounts_positive_witness : 1 <= 3000.
Proof.
  apply (instruction_amounts_positive
           [("Alice", 5000); ("Bob", -3000); ("Charlie", -2000)]%string
           "Bob"%string "Alice"%string 3000).
  left. reflexivity.
Defined.

(** X18. In a balance map (a dict: no key twice) every instruction goes
    from a participant whose balance is below -0.01 to a participant whose
    balance is above 0.01; in particular nobody is told to pay
    themselves. *)
Theorem instruction_parties (balances : dict) (from_user to_user : string)
    (amount : Z) :
  NoDup (keys balances) ->
  In (from_user, to_user, amount) (simplify_debts balances) ->
  (exists balance, get balances from_user = Some balance /\ balance < -1)
  /\ (exists balance, get balances to_user = Some balance /\ 1 < balance)
  /\ from_user <> to_user.
Proof.
  intros Hnd Hin.
  destruct (simplify_debts_names _ _ _ _ Hin) as [(bf & Hbf & Hlt) (bt & Hbt & Hgt)].
  pose proof (get_of_In _ _ _ Hnd Hbf) as Hf.
  pose proof (get_of_In _ _ _ Hnd Hbt) as Ht.
  split; [exists bf; split; assumption|].
  split; [exists bt; split; assumption|].
  intros ->. rewrite Hf in Ht. injection Ht as ->. lia.
Qed.

Lemma instruction_parties_witness :
  let balances := [("Alice", 5000); ("Bob", -3000); ("Charlie", -2000)]%string in
  (exists balance, get balances "Charlie"%string = Some balance /\ balance < -1)
  /\ (exists balance, get balances "Alice"%string = Some balance /\ 1 < balance)
  /\ "Charlie"%string <> "Alice"%string.
Proof.
  intros balances.
  apply (instruction_parties balances "Charlie"%string "Alice"%string 2000).
  - apply (bool_decide_unpack _). vm_compute. exact I.
  - right. left. reflexivity.
Defined.


(** ** Replaying the instructions on any map *)







(** A missing participant makes the replay fail. *)
Lemma replay_missing_key (txs : list instruction) (balances : dict)
    (from_user to_user : string) (amount : Z) :
  ~ In from_user (keys balances) ->
  apply_instructions balances ((from_user, to_user, amount) :: txs)
  = Err (KeyError from_user).
Proof.
  intros Hnot. cbn [apply_instructions]. unfold add_key.
  rewrite (get_not_key _ _ Hnot). reflexivity.
Qed.



(** ** The first instruction *)

Lemma simplify_debts_head (balances : dict) (debtor creditor : string)
    (owed due : Z) (ds cs : list (string * Z)) :
  sorted_debtors balances = (debtor, owed) :: ds ->
  sorted_creditors balances = (creditor, due) :: cs ->
  exists rest,
    simplify_debts balances = (debtor, creditor, Z.min owed due) :: rest.
Proof.
  intros HD HC.
  set (first := (debtor, creditor, Z.min owed due)).
  destruct (simplify_debts_invariant balances
              (fun st => st = initial_state (sorted_debtors balances)
                                (sorted_creditors balances)
                         \/ exists rest, transactions st = first :: rest))
    as (st & _ & Hres & Hinv & Hnone).
  { left. reflexivity. }
  { intros st st' Hinv Hstep. right.
    destruct (loop_step_Some _ _ _ _ Hstep)
      as (d & a & c & a' & Hd & Hc & Htx & _).
    destruct Hinv as [->|[rest Hrest]].
    - rewrite HD, HC in Hd, Hc. cbn in Hd, Hc.
      injection Hd as <- <-. injection Hc as <- <-.
      exists []. rewrite Htx, HD, HC. reflexivity.
    - exists (rest ++ [(d, c, Z.min (current_debt st) (current_credit st))]).
      rewrite Htx, Hrest. reflexivity. }
  destruct Hinv as [->|[rest Hrest]].
  - exfalso. apply loop_step_None in Hnone. apply Hnone.
    rewrite HD, HC. cbn. lia.
  - exists rest. rewrite Hres. exact Hrest.
Qed.




Lemma no_debtor_no_instruction (balances : dict) :
  debtors_of balances = [] -> simplify_debts balances = [].
Proof.
  intros Hnone.
  unfold simplify_debts, simplify_debts_run, sorted_debtors.
  rewrite Hnone. cbn [sort_desc].
  destruct (passes balances); reflexivity.
Qed.

(** X24. [simplify_debts] returns no instruction exactly when the map has
    no debtor or no creditor: as soon as one balance is below -0.01 and
    another above 0.01, something is settled. *)
Theorem no_instruction_iff (balances : dict) :
  simplify_debts balances = []
  <-> debtors_of balances = [] \/ creditors_of balances = [].
Proof.
  split.
  - intros Hempty.
    destruct (debtors_of balances) as [|d ds] eqn:HD; [left; reflexivity|].
    destruct (creditors_of balances) as [|c cs] eqn:HC; [right; reflexivity|].
    exfalso.
    pose proof (sort_desc_perm (debtors_of balances)) as HpermD.
    pose proof (sort_desc_perm (creditors_of balances)) as HpermC.
    destruct (sort_desc (debtors_of balances)) as [|[debtor owed] ds'] eqn:HsD.
    { rewrite HD in HpermD. apply Permutation_nil in HpermD. discriminate HpermD. }
    destruct (sort_desc (creditors_of balances)) as [|[creditor due] cs'] eqn:HsC.
    { rewrite HC in HpermC. apply Permutation_nil in HpermC. discriminate HpermC. }
    destruct (simplify_debts_head balances debtor creditor owed due ds' cs' HsD HsC)
      as [rest Hrest].
    rewrite Hrest in Hempty. discriminate Hempty.
  - intros [H|H]; [apply no_debtor_no_instruction|apply no_creditor_no_instruction];
      exact H.
Qed.

Lemma debtors_creditors_length (balances : dict) :
  (length (debtors_of balances) + length (creditors_of balances)
   <= length balances)%nat.
Proof.
  induction balances as [|[u b] rest IH]; cbn [debtors_of creditors_of length].
  - lia.
  - destruct (Z.ltb_spec b (-1)); destruct (Z.ltb_spec 1 b); cbn [length]; lia.
Qed.

(** X25. [simplify_group_debts] reports fewer transactions than there are
    participants with a balance: at most their number minus one, and none
    for an empty ledger. *)
Theorem total_transactions_bound (expenses : list expense) :
  Z.of_nat (snd (Api.simplify_group_debts expenses))
  <= Z.max 0 (Z.of_nat (length (keys (calculate_group_balances expenses []))) - 1).
Proof.
  unfold Api.simplify_group_debts. cbn [snd].
  set (balances := calculate_group_balances expenses []).
  destruct (simplify_debts_invariant balances
              (count_inv (sorted_debtors balances) (sorted_creditors balances)))
    as (st & _ & -> & [_ Hcount] & _).
  - split; cbn; lia.
  - intros st st'. apply count_inv_step.
  - rewrite sorted_debtors_length, sorted_creditors_length in Hcount.
    pose proof (debtors_creditors_length balances) as Hlen.
    unfold keys. rewrite length_map. lia.
Qed.

(** ** Nobody is forgotten, no pair is repeated *)





Lemma lookup_map_fst (l : list (string * Z)) (k : nat) (user : string)
    (amount : Z) :
  l !! k = Some (user, amount) -> map fst l !! k = Some user.
Proof.
  revert k. induction l as [|x l IH]; intros [|k] H; cbn in *; try discriminate.
  - injection H as ->. reflexivity.
  - exact (IH k H).
Qed.

Lemma debtors_of_keys (balances : dict) (user : string) :
  In user (map fst (debtors_of balances)) -> In user (keys balances).
Proof.
  intros Hin. apply in_map_iff in Hin as ([u a] & <- & Hin).
  apply debtors_of_In in Hin as (b & Hb & _). exact (in_map fst _ _ Hb).
Qed.

Lemma creditors_of_keys (balances : dict) (user : string) :
  In user (map fst (creditors_of balances)) -> In user (keys balances).
Proof.
  intros Hin. apply in_map_iff in Hin as ([u a] & <- & Hin).
  apply creditors_of_In in Hin as [Hb _]. exact (in_map fst _ _ Hb).
Qed.

Lemma NoDup_debtors (balances : dict) :
  NoDup (keys balances) -> NoDup (map fst (sorted_debtors balances)).
Proof.
  intros Hnd.
  assert (H : NoDup (map fst (debtors_of balances))).
  { unfold keys in Hnd.
    induction balances as [|[u b] rest IH]; cbn [debtors_of map fst] in *.
    - apply NoDup_nil_2.
    - apply NoDup_cons in Hnd as [Hnot Hnd].
      destruct (b <? -1); [|exact (IH Hnd)].
      cbn [map fst]. apply NoDup_cons_2; [|exact (IH Hnd)].
      intros Hin. apply Hnot, list_elem_of_In, debtors_of_keys, list_elem_of_In.
      exact Hin. }
  assert (Hp : Permutation (map fst (sorted_debtors balances))
                 (map fst (debtors_of balances)))
    by apply Permutation_map, sort_desc_perm.
  rewrite Hp. exact H.
Qed.

Lemma NoDup_creditors (balances : dict) :
  NoDup (keys balances) -> NoDup (map fst (sorted_creditors balances)).
Proof.
  intros Hnd.
  assert (H : NoDup (map fst (creditors_of balances))).
  { unfold keys in Hnd.
    induction balances as [|[u b] rest IH]; cbn [creditors_of map fst] in *.
    - apply NoDup_nil_2.
    - apply NoDup_cons in Hnd as [Hnot Hnd].
      destruct (1 <? b); [|exact (IH Hnd)].
      cbn [map fst]. apply NoDup_cons_2; [|exact (IH Hnd)].
      intros Hin. apply Hnot, list_elem_of_In, creditors_of_keys, list_elem_of_In.
      exact Hin. }
  assert (Hp : Permutation (map fst (sorted_creditors balances))
                 (map fst (creditors_of balances)))
    by apply Permutation_map, sort_desc_perm.
  rewrite Hp. exact H.
Qed.

(** X27. In a balance map (a dict: no key twice) no two instructions have
    the same payer and the same receiver: each pair of participants is
    matched at most once. *)
Theorem instruction_pairs_distinct (balances : dict) :
  NoDup (keys balances) -> NoDup (map fst (simplify_debts balances)).
Proof.
  intros Hnd.
  pose proof (NoDup_debtors balances Hnd) as HD.
  pose proof (NoDup_creditors balances Hnd) as HC.
  set (debtors := sorted_debtors balances) in *.
  set (creditors := sorted_creditors balances) in *.
  destruct (simplify_debts_invariant balances
              (fun st =>
                 (forall f t a, In (f, t, a) (transactions st) ->
                    exists k k', map fst debtors !! k = Some f
                                 /\ map fst creditors !! k' = Some t
                                 /\ (k + k' < i st + j st)%nat)
                 /\ NoDup (map fst (transactions st))))
    as (st & _ & -> & [_ Hpairs] & _).
  - split; [intros f t a []|apply NoDup_nil_2].
  - intros st st' [Hseen Hpairs] Hstep. fold debtors creditors in Hstep.
    pose proof (loop_step_advance _ _ _ _ Hstep) as (_ & _ & Hi & Hj & Hmove & _).
    destruct (loop_step_Some _ _ _ _ Hstep)
      as (d & a & c & a' & Hd & Hc & Htx & _).
    apply lookup_map_fst in Hd, Hc.
    split.
    + intros f t x Hin. rewrite Htx in Hin.
      apply in_app_or in Hin as [Hin|[Heq|[]]].
      * destruct (Hseen f t x Hin) as (k & k' & Hk & Hk' & Hlt).
        exists k, k'. repeat split; try assumption. lia.
      * injection Heq as <- <- <-. exists (i st), (j st).
        repeat split; try assumption. lia.
    + rewrite Htx, map_app. cbn [map fst]. apply NoDup_app.
      split; [exact Hpairs|]. split; [|apply NoDup_singleton].
      intros [f t] Hold Hnew. apply list_elem_of_In in Hnew.
      destruct Hnew as [Heq|[]]. injection Heq as <- <-.
      apply list_elem_of_In, in_map_iff in Hold as ([[f t] x] & Heq & Hin).
      cbn [fst] in Heq. injection Heq as -> ->.
      destruct (Hseen _ _ _ Hin) as (k & k' & Hk & Hk' & Hlt).
      pose proof (NoDup_lookup _ _ _ _ HD Hk Hd).
      pose proof (NoDup_lookup _ _ _ _ HC Hk' Hc). lia.
  - exact Hpairs.
Qed.

Lemma instruction_pairs_distinct_witness :
  NoDup (map fst (simplify_debts
                    [("a", 300); ("b", 500); ("c", -500); ("d", 300); ("e", -600)]%string)).
Proof.
  apply instruction_pairs_distinct.
  apply (bool_decide_unpack _). vm_compute. exact I.
Defined.

End SimplifierMore.
